(** * AJK-Cleaning: request-security configuration (src/config/security.js)

    A shallow embedding of the origin checks, the input sanitizer and the
    rate-limit policy table of [src/config/security.js], and the properties
    of them that the specification states. *)

From Stdlib Require Import ZArith NArith Ascii String Lia DecimalNat.
From Stdlib Require Import Floats.PrimFloat.
From stdpp Require Import list gmap.

#[local] Set Warnings "-register-all,-clear-no-such-hyp".

(** * JavaScript strings

    A JavaScript string is a sequence of UTF-16 code units. *)
Module JsString.

Local Open Scope N_scope.

Definition code_unit := N.
Definition jsstring := list code_unit.

(** A source literal, written with ASCII characters only. *)
Definition lit (s : string) : jsstring :=
  List.map N_of_ascii (list_ascii_of_string s).
Arguments lit s%_string.

Fixpoint str_eqb (s t : jsstring) : bool :=
  match s, t with
  | [], [] => true
  | a :: s', b :: t' => (a =? b) && str_eqb s' t'
  | _, _ => false
  end.

(** [WhiteSpace] and [LineTerminator] of ECMA-262, the code units that
    [String.prototype.trim] removes. *)
Definition is_white_space (c : code_unit) : bool :=
  (c =? 0x9) || (c =? 0xA) || (c =? 0xB) || (c =? 0xC) || (c =? 0xD)
  || (c =? 0x20) || (c =? 0xA0) || (c =? 0x1680)
  || ((0x2000 <=? c) && (c <=? 0x200A))
  || (c =? 0x2028) || (c =? 0x2029) || (c =? 0x202F) || (c =? 0x205F)
  || (c =? 0x3000) || (c =? 0xFEFF).

Fixpoint trimStart (s : jsstring) : jsstring :=
  match s with
  | c :: s' => if is_white_space c then trimStart s' else s
  | [] => []
  end.

Definition trimEnd (s : jsstring) : jsstring := rev (trimStart (rev s)).

(** [s.trim()] *)
Definition trim (s : jsstring) : jsstring := trimEnd (trimStart s).

(** [s.startsWith(p)] *)
Fixpoint startsWith (s p : jsstring) : bool :=
  match p, s with
  | [], _ => true
  | a :: p', b :: s' => (a =? b) && startsWith s' p'
  | _ :: _, [] => false
  end.

(** [s.includes(p)] *)
Fixpoint includes (s p : jsstring) : bool :=
  startsWith s p ||
  match s with
  | [] => false
  | _ :: s' => includes s' p
  end.

(** [s.split(sep)] for a separator of one code unit. *)
Fixpoint split (sep : code_unit) (s : jsstring) : list jsstring :=
  match s with
  | [] => [[]]
  | c :: s' =>
      if c =? sep then [] :: split sep s'
      else match split sep s' with
           | [] => [[c]]
           | w :: ws => (c :: w) :: ws
           end
  end.

(** [s.replace(/[<>]/g, '')] *)
Definition is_angle (c : code_unit) : bool := (c =? 0x3C) || (c =? 0x3E).

Definition strip_angles (s : jsstring) : jsstring :=
  List.filter (fun c => negb (is_angle c)) s.

(** A string is truthy when it is not empty. *)
Definition truthy_string (s : jsstring) : bool :=
  match s with [] => false | _ :: _ => true end.

End JsString.
Import JsString.

(** * JavaScript values and the object store *)

Definition addr := nat.

Inductive val :=
| VUndefined
| VNull
| VBool (b : bool)
| VNum (f : float)
| VStr (s : jsstring)
| VRef (a : addr).

(** ToBoolean *)
Definition truthy (v : val) : bool :=
  match v with
  | VUndefined | VNull => false
  | VBool b => b
  | VNum f => negb (PrimFloat.is_zero f || PrimFloat.is_nan f)
  | VStr s => truthy_string s
  | VRef _ => true
  end.

(** * The process environment

    [process.env] holds strings, or nothing for a variable that is unset. *)
Record process_env := {
  NODE_ENV : option jsstring;
  ALLOWED_ORIGINS : option jsstring;
  MAX_LOGIN_ATTEMPTS : option jsstring
}.

(** [process.env.NODE_ENV === 'production'] *)
Definition isProduction (env : process_env) : bool :=
  match NODE_ENV env with
  | Some s => str_eqb s (lit "production")
  | None => false
  end.

(** A production deployment with nothing else configured. *)
Definition production_env : process_env :=
  {| NODE_ENV := Some (lit "production");
     ALLOWED_ORIGINS := None;
     MAX_LOGIN_ATTEMPTS := None |}.

(** A record handed to the logger: message and metadata object. *)
Record log_record := {
  log_message : jsstring;
  log_meta : list (jsstring * val)
}.

(** * Origin validation *)
Module Origin.

(** [arr.indexOf(x)] on an array of strings: first index, or -1. *)
Fixpoint indexOf_from (i : Z) (arr : list jsstring) (x : jsstring) : Z :=
  match arr with
  | [] => (-1)%Z
  | y :: arr' => if str_eqb y x then i else indexOf_from (i + 1)%Z arr' x
  end.

Definition indexOf (arr : list jsstring) (x : jsstring) : Z :=
  indexOf_from 0%Z arr x.

(** [arr.includes(x)] on an array of strings. *)
Fixpoint arr_includes (arr : list jsstring) (x : jsstring) : bool :=
  match arr with
  | [] => false
  | y :: arr' => str_eqb y x || arr_includes arr' x
  end.

(** [process.env.ALLOWED_ORIGINS.split(',').map(o => o.trim())] *)
Definition parse_allowed (s : jsstring) : list jsstring :=
  List.map trim (split 0x2C%N s).

(** The default literal of [corsConfig.origin]. *)
Definition cors_default_origins : list jsstring :=
  [ lit "https://ajk-cleaning.onrender.com";
    lit "http://localhost:3000";
    lit "http://127.0.0.1:3000";
    lit "http://localhost:3001";
    lit "http://127.0.0.1:3001";
    lit "https://www.ajkcleaners.de" ].

(** The default literal of [validateWebSocketOrigin]. *)
Definition ws_default_origins : list jsstring :=
  [ lit "https://ajk-cleaning.onrender.com";
    lit "http://localhost:3000";
    lit "http://127.0.0.1:3000";
    lit "http://localhost:3001";
    lit "http://127.0.0.1:3001" ].

(** [process.env.ALLOWED_ORIGINS ? ... : default] *)
Definition resolve_allowed (env : process_env) (default : list jsstring)
  : list jsstring :=
  match ALLOWED_ORIGINS env with
  | Some s => if truthy_string s then parse_allowed s else default
  | None => default
  end.

Definition cors_allowedOrigins (env : process_env) : list jsstring :=
  resolve_allowed env cors_default_origins.

Definition ws_allowedOrigins (env : process_env) : list jsstring :=
  resolve_allowed env ws_default_origins.

(** [!origin]: the argument is undefined or the empty string. *)
Definition origin_falsy (origin : option jsstring) : bool :=
  match origin with
  | None => true
  | Some o => negb (truthy_string o)
  end.

(** What [corsConfig.origin] passes to its callback. *)
Inductive callback_args :=
| CallbackOk (allow : bool)          (* callback(null, allow) *)
| CallbackError (message : jsstring). (* callback(new Error(message)) *)

(** [corsConfig.origin]: the records it logs and the callback it makes. *)
Definition corsConfig_origin (env : process_env) (origin : option jsstring)
  : list log_record * callback_args :=
  match origin with
  | None => ([], CallbackOk true)
  | Some o =>
      if negb (truthy_string o) then ([], CallbackOk true)
      else
        let allowedOrigins := cors_allowedOrigins env in
        if negb (indexOf allowedOrigins o =? -1)%Z
           || (negb (isProduction env) && includes o (lit "localhost"))
        then ([], CallbackOk true)
        else ([ {| log_message := lit "CORS blocked origin";
                   log_meta := [ (lit "origin", VStr o);
                                 (lit "ip", VStr (lit "unknown")) ] |} ],
              CallbackError (lit "Not allowed by CORS"))
  end.

(** The decision of the CORS callback: it is called without an error and
    with [true]. *)
Definition cors_allows (env : process_env) (origin : option jsstring) : bool :=
  match snd (corsConfig_origin env origin) with
  | CallbackOk allow => allow
  | CallbackError _ => false
  end.

(** [validateWebSocketOrigin] *)
Definition validateWebSocketOrigin (env : process_env)
  (origin : option jsstring) : bool :=
  match origin with
  | None => true
  | Some o =>
      if negb (truthy_string o) then true
      else
        let allowedOrigins := ws_allowedOrigins env in
        arr_includes allowedOrigins o
        || (negb (isProduction env) && includes o (lit "localhost"))
  end.

End Origin.

(** * Objects and requests

    Objects and arrays live in a store and are referred to by address
    ([VRef]); a cell lists its own enumerable properties in [for-in] order.
    An array is a cell of kind [KArray] whose property names are its
    indices. *)
Inductive kind := KObject | KArray.

Record cell := Cell {
  cell_kind : kind;
  cell_props : list (jsstring * val)
}.

Abbreviation heap := (list cell).

Fixpoint assoc_get (ps : list (jsstring * val)) (key : jsstring) : option val :=
  match ps with
  | [] => None
  | (k, w) :: ps' => if str_eqb k key then Some w else assoc_get ps' key
  end.

Fixpoint assoc_set (ps : list (jsstring * val)) (key : jsstring) (v : val)
  : list (jsstring * val) :=
  match ps with
  | [] => [(key, v)]
  | (k, w) :: ps' =>
      if str_eqb k key then (k, v) :: ps' else (k, w) :: assoc_set ps' key v
  end.

(** [obj[key]] for the object at address [a]. *)
Definition get_prop (h : heap) (a : addr) (key : jsstring) : val :=
  match h !! a with
  | Some c => default VUndefined (assoc_get (cell_props c) key)
  | None => VUndefined
  end.

(** [obj[key] = v] for the object at address [a]. *)
Definition set_prop (h : heap) (a : addr) (key : jsstring) (v : val) : heap :=
  match h !! a with
  | Some c => <[a := Cell (cell_kind c) (assoc_set (cell_props c) key v)]> h
  | None => h
  end.

(** [v?.key]: a property read that yields undefined on null and undefined;
    the primitives have no own property of the names read here. *)
Definition opt_chain_get (h : heap) (v : val) (key : jsstring) : val :=
  match v with
  | VRef a => get_prop h a key
  | _ => VUndefined
  end.

Record session_data := { authenticated : val }.

(** The parts of an Express request that this file reads. *)
Record request := {
  ip : val;
  path : jsstring;
  user_agent : val;               (* req.get('User-Agent') *)
  session : option session_data;
  body : val;
  query : val;
  params : val
}.

(** [req.session?.authenticated] *)
Definition session_authenticated (req : request) : val :=
  match session req with
  | Some s => authenticated s
  | None => VUndefined
  end.

(** * The input sanitizer *)
Module Sanitizer.

(** [obj.trim().replace(/[<>]/g, '')] *)
Definition clean_string (s : jsstring) : jsstring := strip_angles (trim s).

(** [for (const key in obj) obj[key] = rec(obj[key])], over the property
    names enumerated when the loop starts. *)
Fixpoint for_in (rec : heap → val → option (heap * val)) (a : addr)
  (keys : list jsstring) (h : heap) : option heap :=
  match keys with
  | [] => Some h
  | key :: keys' =>
      '(h1, v') ← rec h (get_prop h a key);
      for_in rec a keys' (set_prop h1 a key v')
  end.

(** [sanitize]. The recursion of the source is bounded here by [fuel], the
    depth of calls allowed; [None] means that the depth was not enough. *)
Fixpoint sanitize (fuel : nat) (h : heap) (obj : val) : option (heap * val) :=
  match fuel with
  | O => None
  | S fuel' =>
      match obj with
      | VStr s => Some (h, VStr (clean_string s))
      | VRef a =>
          match h !! a with
          | Some c =>
              h' ← for_in (sanitize fuel') a (List.map fst (cell_props c)) h;
              Some (h', obj)
          | None => Some (h, obj)
          end
      | _ => Some (h, obj)
      end
  end.

(** [if (req.f) req.f = sanitize(req.f)] *)
Definition sanitize_field (fuel : nat) (h : heap) (v : val)
  : option (heap * val) :=
  if truthy v then sanitize fuel h v else Some (h, v).

(** [sanitizeInput], up to the call of [next()]. *)
Definition sanitizeInput (fuel : nat) (h : heap) (req : request)
  : option (heap * request) :=
  '(h1, b) ← sanitize_field fuel h (body req);
  '(h2, q) ← sanitize_field fuel h1 (query req);
  '(h3, p) ← sanitize_field fuel h2 (params req);
  Some (h3, {| ip := ip req; path := path req; user_agent := user_agent req;
               session := session req; body := b; query := q; params := p |}).

(** ** Payload trees

    A payload as a tree: what a JSON or query-string parser builds. *)
Inductive tree :=
| TUndefined
| TNull
| TBool (b : bool)
| TNum (f : float)
| TStr (s : jsstring)
| TNode (k : kind) (props : list (jsstring * tree)).

Fixpoint depth (t : tree) : nat :=
  match t with
  | TNode _ ps => S (list_max (List.map (fun p => depth (snd p)) ps))
  | _ => O
  end.

(** The string leaves of a tree, left to right. *)
Fixpoint string_leaves (t : tree) : list jsstring :=
  match t with
  | TStr s => [s]
  | TNode _ ps => List.concat (List.map (fun p => string_leaves (snd p)) ps)
  | _ => []
  end.

(** The sanitizer as the specification words it: a string leaf is trimmed
    and then loses every '<' and '>'; a mapping or sequence keeps its keys
    and has every value cleaned; any other scalar is returned unchanged. *)
Fixpoint spec_clean (t : tree) : tree :=
  match t with
  | TStr s => TStr (strip_angles (trim s))
  | TNode k ps => TNode k (List.map (fun p => (fst p, spec_clean (snd p))) ps)
  | _ => t
  end.

(** A scalar that is not a string. *)
Definition other_scalar (t : tree) : bool :=
  match t with
  | TStr _ | TNode _ _ => false
  | _ => true
  end.

(** [frame t t']: [t'] differs from [t] in string leaves only. Nodes have
    the same kind and the same keys in the same order, other scalars are
    equal. *)
Inductive frame : tree → tree → Prop :=
| frame_str s s' : frame (TStr s) (TStr s')
| frame_scalar t : other_scalar t = true → frame t t
| frame_node k ps ps' :
    Forall2 (fun p p' => fst p = fst p' ∧ frame (snd p) (snd p')) ps ps' →
    frame (TNode k ps) (TNode k ps').

(** ** Trees in the store

    [rep h v t fp]: in the store [h] the value [v] is the root of the tree
    [t], laid out in the cells [fp] with no cell used twice. *)
Inductive rep (h : heap) : val → tree → gset addr → Prop :=
| rep_undefined : rep h VUndefined TUndefined ∅
| rep_null : rep h VNull TNull ∅
| rep_bool b : rep h (VBool b) (TBool b) ∅
| rep_num f : rep h (VNum f) (TNum f) ∅
| rep_str s : rep h (VStr s) (TStr s) ∅
| rep_node a k ps ts fp :
    h !! a = Some (Cell k ps) →
    NoDup (List.map fst ps) →
    rep_props h ps ts fp →
    a ∉ fp →
    rep h (VRef a) (TNode k ts) ({[a]} ∪ fp)
with rep_props (h : heap)
  : list (jsstring * val) → list (jsstring * tree) → gset addr → Prop :=
| rep_props_nil : rep_props h [] [] ∅
| rep_props_cons key v t ps ts fp1 fp2 :
    rep h v t fp1 →
    rep_props h ps ts fp2 →
    fp1 ## fp2 →
    rep_props h ((key, v) :: ps) ((key, t) :: ts) (fp1 ∪ fp2).

(** ** Stores without a reference cycle

    [acyclic h rank]: a cell that [rank] ranks refers to ranked cells of
    lower rank only, so no chain of references that starts in a ranked
    cell comes back to a cell it has passed. *)
Definition acyclic (h : heap) (rank : addr → option nat) : Prop :=
  ∀ a c r key b,
    h !! a = Some c → rank a = Some r → (key, VRef b) ∈ cell_props c →
    ∃ r', rank b = Some r' ∧ r' < r.

(** [refs_within h' h]: each cell of [h'] is a cell of [h] and refers to no
    cell that it does not refer to in [h]. *)
Definition refs_within (h' h : heap) : Prop :=
  ∀ a c', h' !! a = Some c' →
    ∃ c, h !! a = Some c ∧
      ∀ key b, (key, VRef b) ∈ cell_props c' →
        ∃ key', (key', VRef b) ∈ cell_props c.

End Sanitizer.

(** * Rate-limit policies *)
Module RateLimit.

Local Open Scope Z_scope.

(** The value of a digit in the given radix, if it is one. *)
Definition digit_value (radix : Z) (c : code_unit) : option Z :=
  let d :=
    if ((0x30 <=? c) && (c <=? 0x39))%N then Some (Z.of_N c - 0x30)
    else if ((0x61 <=? c) && (c <=? 0x7A))%N then Some (Z.of_N c - 0x61 + 10)
    else if ((0x41 <=? c) && (c <=? 0x5A))%N then Some (Z.of_N c - 0x41 + 10)
    else None in
  match d with
  | Some d => if d <? radix then Some d else None
  | None => None
  end.

(** The value of the longest prefix of digits; [acc] is the value read so
    far, [None] while no digit was read. *)
Fixpoint parse_digits (radix : Z) (s : jsstring) (acc : option Z) : option Z :=
  match s with
  | [] => acc
  | c :: s' =>
      match digit_value radix c with
      | Some d => parse_digits radix s' (Some (radix * default 0 acc + d))
      | None => acc
      end
  end.

(** [parseInt(s)] without a radix. [None] is NaN, exactly. [Some z] is
    the integer that the digits denote; the source returns the double
    nearest to it, which is [z] itself while its magnitude is at most
    2^53, and may be another number, or Infinity for a very long numeral,
    beyond that. *)
Definition parseInt (s : jsstring) : option Z :=
  let s1 := trimStart s in
  let '(sign, s2) :=
    match s1 with
    | c :: r => if (c =? 0x2D)%N then (-1, r)
                else if (c =? 0x2B)%N then (1, r) else (1, s1)
    | [] => (1, s1)
    end in
  let '(radix, s3) :=
    match s2 with
    | z :: x :: r =>
        if ((z =? 0x30) && ((x =? 0x78) || (x =? 0x58)))%N then (16, r)
        else (10, s2)
    | _ => (10, s2)
    end in
  option_map (Z.mul sign) (parse_digits radix s3 None).

(** ToString of an environment variable: unset reads as undefined. *)
Definition env_to_string (v : option jsstring) : jsstring :=
  match v with
  | Some s => s
  | None => lit "undefined"
  end.

(** [n || d] for a number [n]: NaN and 0 are falsy. *)
Definition or_default (n : option Z) (d : Z) : Z :=
  match n with
  | Some z => if z =? 0 then d else z
  | None => d
  end.

(** [res.status(code).json(body)] *)
Record response := {
  status : Z;
  json : list (jsstring * val)
}.

(** The options object passed to [rateLimit]. The limiter that
    express-rate-limit builds from it is outside this repository; a policy
    is identified with its options. *)
Record options := {
  windowMs : Z;
  max : Z;
  message : list (jsstring * val);
  standardHeaders : bool;
  legacyHeaders : bool;
  skip : option (request → val);
  handler : heap → request → list log_record * response
}.

Definition rateLimit (o : options) : options := o.

(** The limiter skips a request when [skip] returns a truthy value. *)
Definition skips (o : options) (req : request) : bool :=
  match skip o with
  | Some f => truthy (f req)
  | None => false
  end.

(** [a && b] *)
Definition js_and (a b : val) : val := if truthy a then b else a.

Definition api : options := rateLimit {|
  windowMs := 15 * 60 * 1000;
  max := 100;
  message :=
    [ (lit "error",
       VStr (lit "Too many requests from this IP, please try again later."));
      (lit "retryAfter", VStr (lit "15 minutes")) ];
  standardHeaders := true;
  legacyHeaders := false;
  skip := Some (fun req =>
    js_and (VBool (startsWith (path req) (lit "/api/admin")))
           (session_authenticated req));
  handler := fun _ req =>
    ([ {| log_message := lit "Rate limit exceeded";
          log_meta := [ (lit "ip", ip req);
                        (lit "path", VStr (path req));
                        (lit "userAgent", user_agent req) ] |} ],
     {| status := 429;
        json :=
          [ (lit "error",
             VStr (lit "Too many requests from this IP, please try again later."));
            (lit "retryAfter", VStr (lit "15 minutes")) ] |})
|}.

Definition login (env : process_env) : options := rateLimit {|
  windowMs := 15 * 60 * 1000;
  max := or_default (parseInt (env_to_string (MAX_LOGIN_ATTEMPTS env))) 5;
  message :=
    [ (lit "error",
       VStr (lit "Too many login attempts, please try again later."));
      (lit "retryAfter", VStr (lit "15 minutes")) ];
  standardHeaders := true;
  legacyHeaders := false;
  skip := Some session_authenticated;
  handler := fun h req =>
    ([ {| log_message := lit "Login rate limit exceeded";
          log_meta := [ (lit "ip", ip req);
                        (lit "username",
                         opt_chain_get h (body req) (lit "username"));
                        (lit "userAgent", user_agent req) ] |} ],
     {| status := 429;
        json :=
          [ (lit "error",
             VStr (lit "Too many login attempts, please try again later."));
            (lit "retryAfter", VStr (lit "15 minutes")) ] |})
|}.

Definition form : options := rateLimit {|
  windowMs := 60 * 1000;
  max := 3;
  message :=
    [ (lit "error",
       VStr (lit "Too many form submissions, please wait before submitting again."));
      (lit "retryAfter", VStr (lit "1 minute")) ];
  standardHeaders := true;
  legacyHeaders := false;
  skip := None;
  handler := fun _ req =>
    ([ {| log_message := lit "Form submission rate limit exceeded";
          log_meta := [ (lit "ip", ip req);
                        (lit "userAgent", user_agent req) ] |} ],
     {| status := 429;
        json :=
          [ (lit "success", VBool false);
            (lit "error",
             VStr (lit "Too many form submissions, please wait before submitting again.")) ] |})
|}.

(** The properties of the [rateLimitConfigs] object, in order. *)
Definition rateLimitConfigs (env : process_env) : list (jsstring * options) :=
  [ (lit "api", api); (lit "login", login env); (lit "form", form) ].

(** How the evaluation of the module body ends when the server starts. *)
Inductive startup (A : Type) :=
| Started (exports : A)
| Threw (error : jsstring).
Arguments Started {A} exports.
Arguments Threw {A} error.

(** The module body builds the three limiters in a row; no statement on
    the way throws. *)
Definition load_rateLimitConfigs (env : process_env)
  : startup (list (jsstring * options)) :=
  Started (rateLimitConfigs env).

(** The fields of a JSON body and their types. *)
Definition is_string (v : val) : bool :=
  match v with VStr _ => true | _ => false end.

End RateLimit.

(** * The statements of the specification *)
Module Spec.

(** [p] occurs in [s] as a substring. *)
Definition is_substring (p s : jsstring) : Prop :=
  ∃ pre post, s = pre ++ p ++ post.

(** The origin rule as the specification states it, for a decision
    procedure [allowed] that resolves its allow-list with [allowList]:
    an absent origin is allowed; a present one is allowed exactly when it
    is in the allow-list, or the mode is not production and the origin
    contains "localhost". *)
Definition origin_rule
  (allowed : process_env → option jsstring → bool)
  (allowList : process_env → list jsstring) : Prop :=
  ∀ env origin,
    match origin with
    | None => allowed env None = true
    | Some o =>
        allowed env (Some o) = true ↔
        o ∈ allowList env ∨
        (isProduction env = false ∧ is_substring (lit "localhost") o)
    end.

(** The sanitizer returns on every store and value, cyclic or not: some
    depth of calls is enough for a result. *)
Definition sanitize_always_returns : Prop :=
  ∀ (h : heap) (v : val), ∃ fuel, is_Some (Sanitizer.sanitize fuel h v).

(** An unparsable limit is fatal at startup: whenever
    [MAX_LOGIN_ATTEMPTS] is set to a string that does not parse as a
    number, building the limiters throws. *)
Definition invalid_limit_is_fatal : Prop :=
  ∀ env s,
    MAX_LOGIN_ATTEMPTS env = Some s → RateLimit.parseInt s = None →
    ∃ e, RateLimit.load_rateLimitConfigs env = RateLimit.Threw e.

End Spec.

(** * Sample payloads *)
Module Examples.
Import Sanitizer.

(** [{"name": "  <b>hi</b>  "}] *)
Definition name_payload : heap :=
  [ Cell KObject [ (lit "name", VStr (lit "  <b>hi</b>  ")) ] ].

Definition name_tree : tree :=
  TNode KObject [ (lit "name", TStr (lit "  <b>hi</b>  ")) ].

(** [["<script>", 5, null]] *)
Definition script_payload : heap :=
  [ Cell KArray [ (lit "0", VStr (lit "<script>"));
                  (lit "1", VNum 5%float);
                  (lit "2", VNull) ] ].

Definition script_tree : tree :=
  TNode KArray [ (lit "0", TStr (lit "<script>"));
                 (lit "1", TNum 5%float);
                 (lit "2", TNull) ].

(** [const o = {}; o.self = o] *)
Definition self_referential : heap :=
  [ Cell KObject [ (lit "self", VRef 0) ] ].

(** [const s = {x: "< a"}; const o = {a: s, b: s}]: one object reached
    along two paths. *)
Definition shared_payload : heap :=
  [ Cell KObject [ (lit "a", VRef 1); (lit "b", VRef 1) ];
    Cell KObject [ (lit "x", VStr (lit "< a")) ] ].

Definition shared_rank (a : addr) : option nat :=
  match a with
  | 0 => Some 1
  | 1 => Some 0
  | _ => None
  end.

(** [MAX_LOGIN_ATTEMPTS=abc] *)
Definition unparsable_env : process_env :=
  {| NODE_ENV := Some (lit "production");
     ALLOWED_ORIGINS := None;
     MAX_LOGIN_ATTEMPTS := Some (lit "abc") |}.

End Examples.

(** * Session configuration *)
Module Session.

Record cookie_options := {
  secure : bool;
  httpOnly : bool;
  sameSite : jsstring;
  maxAge : Z;
  domain : option jsstring        (* None: undefined *)
}.

Record session_options := {
  secret : jsstring;
  resave : bool;
  saveUninitialized : bool;
  name : jsstring;
  cookie : cookie_options
}.

Definition fallback_secret : jsstring :=
  lit "fallback-secret-change-in-production".

(** [sessionConfig]; [session_secret] is [process.env.SESSION_SECRET]. *)
Definition sessionConfig (env : process_env) (session_secret : option jsstring)
  : session_options :=
  {| secret :=
       match session_secret with
       | Some s => if truthy_string s then s else fallback_secret
       | None => fallback_secret
       end;
     resave := false;
     saveUninitialized := false;
     name := lit "ajk.sid";
     cookie :=
       {| secure := isProduction env;
          httpOnly := true;
          sameSite := if isProduction env then lit "none" else lit "lax";
          maxAge := (24 * 60 * 60 * 1000)%Z;
          domain := if isProduction env then Some (lit ".onrender.com")
                    else None |} |}.

End Session.

(** * Notions used to state what the code keeps *)
Module Facts.

(** [parts.join(sep)] for a separator of one code unit. *)
Fixpoint join (sep : code_unit) (parts : list jsstring) : jsstring :=
  match parts with
  | [] => []
  | [p] => p
  | p :: ps => p ++ sep :: join sep ps
  end.

Definition no_angle (s : jsstring) : Prop :=
  ∀ c, c ∈ s → is_angle c = false.

(** The characters that the sanitizer may drop. *)
Definition droppable (c : code_unit) : bool := is_white_space c || is_angle c.

(** What [sanitize] returns for a value: a string cleaned, anything else
    as it is. *)
Definition sanitized (v : val) : val :=
  match v with
  | VStr s => VStr (Sanitizer.clean_string s)
  | _ => v
  end.

(** A property value after some writes of the sanitizer: the value that
    was there, or a string without '<' and '>' in the place of a string. *)
Definition kept_or_cleaned (v v' : val) : Prop :=
  v' = v ∨ ∃ s s', v = VStr s ∧ v' = VStr s' ∧ no_angle s'.

(** A cell after such writes: same kind, same property names in the same
    order. *)
Definition cell_kept (c c' : cell) : Prop :=
  cell_kind c' = cell_kind c ∧
  Forall2 (fun p p' => fst p' = fst p ∧ kept_or_cleaned (snd p) (snd p'))
    (cell_props c) (cell_props c').

(** A store after such writes: the same cells at the same addresses. *)
Definition store_kept (h h' : heap) : Prop := Forall2 cell_kept h h'.

(** [reach h v s]: the string [s] is [v], or is found from [v] by reading
    properties in the store [h]. *)
Inductive reach (h : heap) : val → jsstring → Prop :=
| reach_here s : reach h (VStr s) s
| reach_prop a c key v s :
    h !! a = Some c →
    assoc_get (cell_props c) key = Some v →
    reach h v s →
    reach h (VRef a) s.

(** No string found from [v] holds '<' or '>'. *)
Definition angle_free (h : heap) (v : val) : Prop :=
  ∀ s, reach h v s → no_angle s.

(** A request whose body is [{"name": "  <b>hi</b>  "}], laid out in
    [Examples.name_payload], with no query and no route parameters. *)
Definition name_request : request :=
  {| ip := VStr (lit "203.0.113.7");
     path := lit "/api/contact";
     user_agent := VUndefined;
     session := None;
     body := VRef 0;
     query := VUndefined;
     params := VUndefined |}.

(** The decimal numeral of a number, as code units. *)
Fixpoint uint_units (d : Decimal.uint) : jsstring :=
  match d with
  | Decimal.Nil => []
  | Decimal.D0 d => 0x30%N :: uint_units d
  | Decimal.D1 d => 0x31%N :: uint_units d
  | Decimal.D2 d => 0x32%N :: uint_units d
  | Decimal.D3 d => 0x33%N :: uint_units d
  | Decimal.D4 d => 0x34%N :: uint_units d
  | Decimal.D5 d => 0x35%N :: uint_units d
  | Decimal.D6 d => 0x36%N :: uint_units d
  | Decimal.D7 d => 0x37%N :: uint_units d
  | Decimal.D8 d => 0x38%N :: uint_units d
  | Decimal.D9 d => 0x39%N :: uint_units d
  end.

Definition decimal (n : nat) : jsstring := uint_units (Nat.to_uint n).

(** The string starts with the hex prefix 0x or 0X. *)
Definition hex_prefix (s : jsstring) : bool :=
  match s with
  | z :: s' =>
      (z =? 0x30)%N &&
      match s' with
      | x :: _ => ((x =? 0x78) || (x =? 0x58))%N
      | [] => false
      end
  | [] => false
  end.

(** Text after a decimal numeral that ends it for [parseInt]: nothing, or
    a first code unit that is neither a digit nor the x of a hex prefix. *)
Definition ends_numeral (rest : jsstring) : bool :=
  match rest with
  | [] => true
  | c :: _ =>
      negb ((0x30 <=? c) && (c <=? 0x39))%N
      && negb ((c =? 0x78) || (c =? 0x58))%N
  end.

End Facts.

(** * Strings: the operations meet their descriptions *)
Section StringFacts.

Lemma str_eqb_eq s t : str_eqb s t = true ↔ s = t.
Proof.
  revert t; induction s as [|a s IH]; intros [|b t]; simpl; try easy.
  rewrite andb_true_iff, N.eqb_eq, IH. split.
  - intros [-> ->]; reflexivity.
  - intros [= -> ->]; auto.
Qed.

Lemma str_eqb_refl s : str_eqb s s = true.
Proof. apply str_eqb_eq; reflexivity. Qed.

Lemma str_eqb_neq s t : str_eqb s t = false ↔ s ≠ t.
Proof.
  rewrite <- str_eqb_eq. destruct (str_eqb s t); split; congruence.
Qed.

Lemma startsWith_prefix s p : startsWith s p = true ↔ ∃ post, s = p ++ post.
Proof.
  revert s; induction p as [|a p IH]; intros s; simpl.
  - split; [intros _; exists s; reflexivity | destruct s; reflexivity].
  - destruct s as [|b s]; simpl.
    + split; [discriminate | intros [post [=]]].
    + rewrite andb_true_iff, N.eqb_eq, IH. split.
      * intros [-> [post ->]]; eauto.
      * intros [post [= -> ->]]; eauto.
Qed.

Lemma includes_substring s p :
  includes s p = true ↔ Spec.is_substring p s.
Proof.
  unfold Spec.is_substring. induction s as [|b s IH].
  - cbn [includes]. rewrite orb_false_r, startsWith_prefix. split.
    + intros [post ->]. exists [], post; reflexivity.
    + intros [pre [post E]]. destruct pre; [eauto|discriminate].
  - cbn [includes]. rewrite orb_true_iff, startsWith_prefix, IH. split.
    + intros [[post ->] | [pre [post ->]]].
      * exists [], post; reflexivity.
      * exists (b :: pre), post; reflexivity.
    + intros [[|c pre] [post E]].
      * left; exists post; exact E.
      * right; injection E as -> ->; eauto.
Qed.

Lemma strip_angles_clean s c : c ∈ strip_angles s → is_angle c = false.
Proof.
  unfold strip_angles. rewrite list_elem_of_In, filter_In.
  intros [_ H]. destruct (is_angle c); [discriminate|reflexivity].
Qed.

Lemma strip_angles_keeps s c :
  c ∈ strip_angles s ↔ c ∈ s ∧ is_angle c = false.
Proof.
  unfold strip_angles. rewrite !list_elem_of_In, filter_In, negb_true_iff.
  reflexivity.
Qed.

(** [trimStart] removes a run of white space, the longest one. *)
Lemma trimStart_split s :
  ∃ ws, s = ws ++ trimStart s ∧ Forall (fun c => is_white_space c = true) ws ∧
        match trimStart s with
        | c :: _ => is_white_space c = false
        | [] => True
        end.
Proof.
  induction s as [|c s (ws & E & Hws & Hhd)]; simpl.
  - exists []; auto.
  - destruct (is_white_space c) eqn:Hc.
    + exists (c :: ws). split; [simpl; congruence|]. split; auto.
    + exists []. simpl. rewrite Hc. auto.
Qed.

(** [trim] removes white space at both ends and nothing else. *)
Lemma trim_split s :
  ∃ ws1 ws2, s = ws1 ++ trim s ++ ws2 ∧
    Forall (fun c => is_white_space c = true) ws1 ∧
    Forall (fun c => is_white_space c = true) ws2.
Proof.
  unfold trim, trimEnd.
  destruct (trimStart_split s) as (ws1 & E1 & H1 & _).
  destruct (trimStart_split (rev (trimStart s))) as (ws2 & E2 & H2 & _).
  exists ws1, (rev ws2). split; [|split; [exact H1|]].
  - rewrite <- rev_app_distr, <- E2, rev_involutive. exact E1.
  - apply Forall_rev; exact H2.
Qed.

Lemma trim_no_edge_space s :
  (∀ c r, trim s = c :: r → is_white_space c = false) ∧
  (∀ r c, trim s = r ++ [c] → is_white_space c = false).
Proof.
  unfold trim, trimEnd.
  destruct (trimStart_split s) as (ws1 & _ & _ & Hhd).
  destruct (trimStart_split (rev (trimStart s))) as (ws2 & E2 & _ & Hlast).
  set (m := trimStart (rev (trimStart s))) in *.
  assert (E : trimStart s = rev m ++ rev ws2).
  { rewrite <- rev_app_distr, <- E2, rev_involutive. reflexivity. }
  split.
  - intros c r Hm. rewrite E, Hm in Hhd. exact Hhd.
  - intros r c Hm. apply (f_equal (@rev _)) in Hm.
    rewrite rev_involutive, rev_app_distr in Hm. simpl in Hm.
    rewrite Hm in Hlast. exact Hlast.
Qed.

Example trim_sample :
  trim (lit "  <b>hi</b>  ") = lit "<b>hi</b>" ∧
  strip_angles (lit "<b>hi</b>") = lit "bhi/b" ∧
  split 0x2C%N (lit "https://a.example, http://b.example")
    = [ lit "https://a.example"; lit " http://b.example" ].
Proof. repeat split. Qed.

End StringFacts.

(** * Origin validation *)
Section OriginFacts.
Import Origin.

Lemma arr_includes_elem arr x : arr_includes arr x = true ↔ x ∈ arr.
Proof.
  induction arr as [|y arr IH]; simpl.
  - split; [discriminate | intros H; inversion H].
  - rewrite orb_true_iff, str_eqb_eq, IH, elem_of_cons.
    split; (intros [H|H]; [left; congruence | right; exact H]).
Qed.

Lemma indexOf_from_elem i arr x :
  (0 ≤ i)%Z → (indexOf_from i arr x =? -1)%Z = false ↔ x ∈ arr.
Proof.
  revert i; induction arr as [|y arr IH]; intros i Hi; simpl.
  - split; [discriminate | intros H; inversion H].
  - rewrite elem_of_cons. destruct (str_eqb y x) eqn:E.
    + apply str_eqb_eq in E. split; [auto | intros _; lia].
    + apply str_eqb_neq in E. rewrite IH by lia.
      split; [auto | intros [H|H]; [congruence | exact H]].
Qed.

(** On an array of strings [indexOf(x) !== -1] and [includes(x)] agree. *)
Lemma indexOf_includes arr x :
  negb (indexOf arr x =? -1)%Z = arr_includes arr x.
Proof.
  unfold indexOf. apply eq_true_iff_eq.
  rewrite negb_true_iff, indexOf_from_elem by lia.
  symmetry; apply arr_includes_elem.
Qed.

(** The two checks differ in their default list only: given the same
    allow-list they decide alike. *)
Lemma cors_ws_same_test env origin :
  cors_allowedOrigins env = ws_allowedOrigins env →
  cors_allows env origin = validateWebSocketOrigin env origin.
Proof.
  intros E. unfold cors_allows, corsConfig_origin, validateWebSocketOrigin.
  destruct origin as [o|]; [|reflexivity].
  destruct (truthy_string o); simpl; [|reflexivity].
  rewrite indexOf_includes, E.
  destruct (arr_includes _ o || _); reflexivity.
Qed.

(** With [ALLOWED_ORIGINS] set to a non-empty string both checks read the
    same list. *)
Lemma cors_ws_agree_when_configured env s origin :
  ALLOWED_ORIGINS env = Some s → s ≠ [] →
  cors_allows env origin = validateWebSocketOrigin env origin.
Proof.
  intros E Hs. apply cors_ws_same_test.
  unfold cors_allowedOrigins, ws_allowedOrigins, resolve_allowed.
  rewrite E. destruct s; [congruence | reflexivity].
Qed.

(** The decision of each check, in terms of its allow-list. *)
Lemma validateWebSocketOrigin_true env origin :
  validateWebSocketOrigin env origin = true ↔
  origin = None ∨ origin = Some (lit "") ∨
  ∃ o, origin = Some o ∧
    (o ∈ ws_allowedOrigins env ∨
     (isProduction env = false ∧ Spec.is_substring (lit "localhost") o)).
Proof.
  unfold validateWebSocketOrigin.
  destruct origin as [[|c o]|]; cbn [truthy_string negb].
  - split; auto.
  - rewrite orb_true_iff, andb_true_iff, negb_true_iff,
      arr_includes_elem, includes_substring.
    split.
    + intros H. right; right. eexists; split; [reflexivity | exact H].
    + intros [H | [H | (o' & [= <-] & H)]]; [discriminate.. | exact H].
  - split; auto.
Qed.

Lemma cors_allows_true env origin :
  cors_allows env origin = true ↔
  origin = None ∨ origin = Some (lit "") ∨
  ∃ o, origin = Some o ∧
    (o ∈ cors_allowedOrigins env ∨
     (isProduction env = false ∧ Spec.is_substring (lit "localhost") o)).
Proof.
  unfold cors_allows, corsConfig_origin.
  destruct origin as [[|c o]|]; cbn [truthy_string negb snd].
  - split; auto.
  - rewrite indexOf_includes.
    transitivity ((arr_includes (cors_allowedOrigins env) (c :: o)
      || negb (isProduction env) && includes (c :: o) (lit "localhost"))
      = true).
    { destruct (arr_includes _ _ || _); simpl; split; congruence. }
    rewrite orb_true_iff, andb_true_iff, negb_true_iff,
      arr_includes_elem, includes_substring.
    split.
    + intros H. right; right. eexists; split; [reflexivity | exact H].
    + intros [H | [H | (o' & [= <-] & H)]]; [discriminate.. | exact H].
  - split; auto.
Qed.

(** C1: with [ALLOWED_ORIGINS] unset, in any mode, the CORS callback admits
    the origin https://www.ajkcleaners.de, which is in its default list
    only, and [validateWebSocketOrigin] rejects it. *)
Theorem cors_ws_defaults_disagree (node_env max_attempts : option jsstring) :
  let env := {| NODE_ENV := node_env; ALLOWED_ORIGINS := None;
                MAX_LOGIN_ATTEMPTS := max_attempts |} in
  let origin := Some (lit "https://www.ajkcleaners.de") in
  cors_allowedOrigins env ≠ ws_allowedOrigins env ∧
  cors_allows env origin = true ∧
  validateWebSocketOrigin env origin = false.
Proof.
  split; [discriminate|]. split; [reflexivity|].
  unfold validateWebSocketOrigin, ws_allowedOrigins, resolve_allowed.
  cbn [ALLOWED_ORIGINS]. apply orb_false_iff. split; [reflexivity|].
  apply andb_false_iff. right. reflexivity.
Qed.

(** C2, as the specification states it, fails for both checks: the empty
    string is a present origin that both allow, in production and outside
    every allow-list. *)
Lemma origin_rule_fails_on_empty_string :
  ¬ Spec.origin_rule validateWebSocketOrigin ws_allowedOrigins ∧
  ¬ Spec.origin_rule cors_allows cors_allowedOrigins.
Proof.
  split; intros H; specialize (H production_env (Some (lit "")));
    simpl in H; destruct H as [H _]; destruct (H eq_refl) as [Hin | [Hp _]];
    try discriminate Hp;
    apply list_elem_of_In in Hin; simpl in Hin;
    repeat (destruct Hin as [Hin | Hin]; [discriminate Hin|]); exact Hin.
Qed.

(** C2, amended: each check allows an origin exactly when it is absent or
    the empty string, or it is a member of the check's allow-list, or the
    mode is not production and the origin contains "localhost". *)
Theorem origin_decision_rule env origin :
  (validateWebSocketOrigin env origin = true ↔
   origin = None ∨ origin = Some (lit "") ∨
   ∃ o, origin = Some o ∧
     (o ∈ ws_allowedOrigins env ∨
      (isProduction env = false ∧ Spec.is_substring (lit "localhost") o)))
  ∧
  (cors_allows env origin = true ↔
   origin = None ∨ origin = Some (lit "") ∨
   ∃ o, origin = Some o ∧
     (o ∈ cors_allowedOrigins env ∨
      (isProduction env = false ∧ Spec.is_substring (lit "localhost") o))).
Proof.
  split; [apply validateWebSocketOrigin_true | apply cors_allows_true].
Qed.

(** C10: both checks treat the empty string as they treat an absent
    origin: each tests falsiness, and allows it whatever the mode and the
    allow-list. *)
Theorem empty_origin_allowed env :
  origin_falsy (Some (lit "")) = true ∧
  corsConfig_origin env (Some (lit "")) = corsConfig_origin env None ∧
  corsConfig_origin env (Some (lit "")) = ([], CallbackOk true) ∧
  validateWebSocketOrigin env (Some (lit "")) =
    validateWebSocketOrigin env None ∧
  validateWebSocketOrigin env (Some (lit "")) = true.
Proof. repeat split. Qed.

End OriginFacts.

(** * The sanitizer on payload trees *)
Section SanitizerFacts.
Import Sanitizer.

Lemma assoc_get_middle done key v rest :
  key ∉ List.map fst done →
  assoc_get (done ++ (key, v) :: rest) key = Some v.
Proof.
  induction done as [|[k w] done IH]; simpl; intros H.
  - rewrite str_eqb_refl; reflexivity.
  - apply not_elem_of_cons in H as [Hk H].
    apply not_eq_sym, str_eqb_neq in Hk. rewrite Hk. auto.
Qed.

Lemma assoc_set_middle done key v v' rest :
  key ∉ List.map fst done →
  assoc_set (done ++ (key, v) :: rest) key v' = done ++ (key, v') :: rest.
Proof.
  induction done as [|[k w] done IH]; simpl; intros H.
  - rewrite str_eqb_refl; reflexivity.
  - apply not_elem_of_cons in H as [Hk H].
    apply not_eq_sym, str_eqb_neq in Hk. rewrite Hk, IH; auto.
Qed.

Lemma NoDup_keys_middle (done : list (jsstring * val)) key v rest :
  NoDup (List.map fst (done ++ (key, v) :: rest)) →
  key ∉ List.map fst done.
Proof.
  rewrite List.map_app. simpl. intros H Hin.
  apply NoDup_app in H as (_ & H & _). apply (H key Hin). left.
Qed.

Scheme rep_mut := Minimality for rep Sort Prop
  with rep_props_mut := Minimality for rep_props Sort Prop.
Combined Scheme rep_mutind from rep_mut, rep_props_mut.

(** A tree depends only on the cells it is laid out in. *)
Lemma rep_frame_mut h :
  (∀ v t fp, rep h v t fp →
     ∀ h' : heap, (∀ a, a ∈ fp → h' !! a = h !! a) → rep h' v t fp) ∧
  (∀ ps ts fp, rep_props h ps ts fp →
     ∀ h' : heap, (∀ a, a ∈ fp → h' !! a = h !! a) → rep_props h' ps ts fp).
Proof.
  apply rep_mutind; try (intros; constructor; fail).
  - intros a k ps ts fp Ha Hnd _ IH Hfp h' Hsame.
    apply rep_node with ps; auto.
    + rewrite Hsame by set_solver. exact Ha.
    + apply IH. intros; apply Hsame; set_solver.
  - intros key v t ps ts fp1 fp2 _ IHv _ IHps Hd h' Hsame.
    constructor; auto.
    + apply IHv. intros; apply Hsame; set_solver.
    + apply IHps. intros; apply Hsame; set_solver.
Qed.

Lemma rep_frame (h h' : heap) v t fp :
  rep h v t fp → (∀ a, a ∈ fp → h' !! a = h !! a) → rep h' v t fp.
Proof. intros H; apply (proj1 (rep_frame_mut h)); exact H. Qed.

Lemma rep_props_frame (h h' : heap) ps ts fp :
  rep_props h ps ts fp → (∀ a, a ∈ fp → h' !! a = h !! a) →
  rep_props h' ps ts fp.
Proof. intros H; apply (proj2 (rep_frame_mut h)); exact H. Qed.

Lemma rep_props_app (h : heap) ps ts fp ps' ts' fp' :
  rep_props h ps ts fp → rep_props h ps' ts' fp' → fp ## fp' →
  rep_props h (ps ++ ps') (ts ++ ts') (fp ∪ fp').
Proof.
  intros H H'. revert fp'  H'.
  induction H as [|key v t ps ts fp1 fp2 Hv Hps IH Hd]; intros fp' H' Hdis.
  - replace (∅ ∪ fp') with fp' by set_solver. exact H'.
  - replace (fp1 ∪ fp2 ∪ fp') with (fp1 ∪ (fp2 ∪ fp')) by set_solver.
    simpl. constructor; [exact Hv | apply IH; [exact H' | set_solver]
                        | set_solver].
Qed.

Lemma rep_props_keys (h : heap) ps ts fp :
  rep_props h ps ts fp → List.map fst ts = List.map fst ps.
Proof. induction 1; simpl; congruence. Qed.

Lemma depth_child k ts (key : jsstring) (t : tree) n :
  depth (TNode k ts) < S n → (key, t) ∈ ts → depth t < n.
Proof.
  simpl. intros Hd Hin.
  assert (depth t ≤ list_max (List.map (fun p => depth (snd p)) ts)).
  { clear Hd. induction ts as [|[k' t'] ts IH]; [inversion Hin|].
    simpl. apply elem_of_cons in Hin as [[= -> ->] | Hin]; [lia|].
    specialize (IH Hin). lia. }
  lia.
Qed.

(** The loop of [sanitize] over the properties of a tree node, given that
    the recursive calls behave. *)
Section ForIn.

Variable n : nat.
Hypothesis sanitize_children :
  ∀ (h : heap) v t fp, rep h v t fp → depth t < n →
    ∃ h' v', sanitize n h v = Some (h', v') ∧
      rep h' v' (spec_clean t) fp ∧
      (∀ a, a ∉ fp → h' !! a = h !! a).

Lemma for_in_rep a k rest_ps :
  ∀ rest_ts fpr done_ps done_ts fpd (h : heap),
    h !! a = Some (Cell k (done_ps ++ rest_ps)) →
    NoDup (List.map fst (done_ps ++ rest_ps)) →
    rep_props h done_ps done_ts fpd →
    rep_props h rest_ps rest_ts fpr →
    fpd ## fpr → a ∉ fpd → a ∉ fpr →
    (∀ key t, (key, t) ∈ rest_ts → depth t < n) →
    ∃ h' ps',
      for_in (sanitize n) a (List.map fst rest_ps) h = Some h' ∧
      h' !! a = Some (Cell k ps') ∧
      List.map fst ps' = List.map fst (done_ps ++ rest_ps) ∧
      rep_props h' ps'
        (done_ts ++ List.map (fun p => (fst p, spec_clean (snd p))) rest_ts)
        (fpd ∪ fpr) ∧
      (∀ b, b ≠ a → b ∉ fpd → b ∉ fpr → h' !! b = h !! b).
Proof.
  induction rest_ps as [|[key v] ps1 IHl];
    intros rest_ts fpr done_ps done_ts fpd h Ha Hnd Hdone Hrest Hdis Had Har
      Hdepth.
  - inversion Hrest; subst. exists h, done_ps. simpl.
    rewrite !app_nil_r in *. replace (fpd ∪ ∅) with fpd by set_solver. auto.
  - inversion Hrest as [|key' v' t ps' ts1 fp1 fp2 Hv Hps1 Hd12]; subst.
    pose proof (NoDup_keys_middle _ _ _ _ Hnd) as Hfresh.
    destruct (sanitize_children h v t fp1 Hv) as (h1 & v1 & Hs & Hv1 & Hf1).
    { apply (Hdepth key); left. }
    assert (Hget : get_prop h a key = v).
    { unfold get_prop. rewrite Ha. simpl. rewrite assoc_get_middle; auto. }
    assert (Ha1 : h1 !! a = Some (Cell k (done_ps ++ (key, v) :: ps1))).
    { rewrite Hf1; [exact Ha | set_solver]. }
    set (h2 := <[a := Cell k (done_ps ++ (key, v1) :: ps1)]> h1).
    assert (Hset : set_prop h1 a key v1 = h2).
    { unfold set_prop. rewrite Ha1. simpl. rewrite assoc_set_middle; auto. }
    assert (Ha2 : h2 !! a = Some (Cell k ((done_ps ++ [(key, v1)]) ++ ps1))).
    { rewrite <- app_assoc. simpl. apply list_lookup_insert_eq.
      eapply lookup_lt_Some; eauto. }
    assert (Hother : ∀ b, b ≠ a → h2 !! b = h1 !! b).
    { intros; apply list_lookup_insert_ne; auto. }
    destruct (IHl ts1 fp2 (done_ps ++ [(key, v1)])
                (done_ts ++ [(key, spec_clean t)]) (fpd ∪ fp1) h2)
      as (h' & ps' & Hfor & Ha' & Hkeys & Hrep & Hframe).
    + exact Ha2.
    + rewrite <- app_assoc. simpl. rewrite List.map_app in *. exact Hnd.
    + apply rep_props_app.
      * apply rep_props_frame with h; auto.
        intros b Hb. rewrite Hother, Hf1; set_solver.
      * replace fp1 with (fp1 ∪ ∅) by set_solver.
        constructor; [|constructor|set_solver].
        apply rep_frame with h1; auto. intros b Hb. apply Hother. set_solver.
      * set_solver.
    + apply rep_props_frame with h; auto.
      intros b Hb. rewrite Hother, Hf1; set_solver.
    + set_solver.
    + set_solver.
    + set_solver.
    + intros key' t' Hin. apply (Hdepth key'). right. exact Hin.
    + exists h', ps'. simpl. rewrite Hget, Hs. simpl. rewrite Hset.
      split; [exact Hfor|]. split; [exact Ha'|]. split.
      { rewrite Hkeys, <- app_assoc. simpl. rewrite !List.map_app.
        reflexivity. }
      split.
      { rewrite <- app_assoc in Hrep. simpl in Hrep.
        replace (fpd ∪ (fp1 ∪ fp2)) with (fpd ∪ fp1 ∪ fp2) by set_solver.
        exact Hrep. }
      intros b Hba Hbd Hbr. rewrite Hframe, Hother, Hf1; auto; set_solver.
Qed.

End ForIn.

(** On a tree laid out in the store, a call of [sanitize] that may nest
    deeper than the tree returns: the tree has become its cleaned form,
    in the same cells, and no other cell has changed. *)
Lemma sanitize_rep n :
  ∀ (h : heap) v t fp, rep h v t fp → depth t < n →
    ∃ h' v', sanitize n h v = Some (h', v') ∧
      rep h' v' (spec_clean t) fp ∧
      (∀ a, a ∉ fp → h' !! a = h !! a).
Proof.
  induction n as [|n IH]; intros h v t fp Hrep Hd; [lia|].
  inversion Hrep as [ | | b | f | s | a k ps ts fp' Ha Hnd Hps Hfresh];
    subst; simpl.
  1-5: eexists _, _; split; [reflexivity|]; split; [constructor | auto].
  rewrite Ha. simpl.
  destruct (for_in_rep n IH a k ps ts fp' [] [] ∅ h)
    as (h' & ps' & Hfor & Ha' & Hkeys & Hrep' & Hframe); auto.
  - constructor.
  - set_solver.
  - set_solver.
  - intros key t Hin. eapply depth_child; eauto.
  - rewrite Hfor. simpl. exists h', (VRef a). split; [reflexivity|]. split.
    + apply rep_node with ps'; auto.
      * rewrite Hkeys; auto.
      * replace fp' with (∅ ∪ fp') by set_solver. exact Hrep'.
    + intros b Hb. apply Hframe; set_solver.
Qed.

(** Induction on trees, with the hypothesis for every child of a node. *)
Lemma tree_nested_ind (P : tree → Prop) :
  P TUndefined → P TNull → (∀ b, P (TBool b)) → (∀ f, P (TNum f)) →
  (∀ s, P (TStr s)) →
  (∀ k ps, Forall (fun p => P (snd p)) ps → P (TNode k ps)) →
  ∀ t, P t.
Proof.
  intros Hu Hn Hb Hf Hs Hnode. fix go 1.
  intros [ | | b | f | s | k ps];
    [exact Hu | exact Hn | apply Hb | apply Hf | apply Hs |].
  apply Hnode. induction ps as [|[key t] ps IHps]; constructor;
    [apply go | exact IHps].
Qed.

(** The cleaned tree has the leaves of the tree, each one trimmed and then
    stripped, in the same order. *)
Lemma string_leaves_spec_clean t :
  string_leaves (spec_clean t) = List.map clean_string (string_leaves t).
Proof.
  induction t as [ | | b | f | s | k ps IH] using tree_nested_ind;
    try reflexivity.
  simpl. induction IH as [|[key t] ps Ht _ IHps]; [reflexivity|].
  simpl in *. rewrite List.map_app, Ht, IHps. reflexivity.
Qed.

Lemma spec_clean_no_angle t s c :
  s ∈ string_leaves (spec_clean t) → c ∈ s → is_angle c = false.
Proof.
  rewrite string_leaves_spec_clean, list_elem_of_In, in_map_iff.
  intros (s0 & <- & _). apply strip_angles_clean.
Qed.

Lemma frame_spec_clean t : frame t (spec_clean t).
Proof.
  induction t as [ | | b | f | s | k ps IH] using tree_nested_ind;
    try (apply frame_scalar; reflexivity); [apply frame_str|].
  simpl. apply frame_node.
  induction IH as [|[key t] ps Ht _ IHps]; constructor; auto.
Qed.

(** What [frame] says of a node: same kind, same keys in the same order,
    same number of entries. *)
Lemma frame_node_inv k ps t' :
  frame (TNode k ps) t' →
  ∃ ps', t' = TNode k ps' ∧ List.map fst ps' = List.map fst ps ∧
         length ps' = length ps ∧
         ∀ i p p', ps !! i = Some p → ps' !! i = Some p' →
                   fst p' = fst p ∧ frame (snd p) (snd p').
Proof.
  intros H; inversion H as [ | t Hs | k0 ps0 ps' Hall]; subst;
    [discriminate Hs|]; clear H.
  exists ps'. split; [reflexivity|]. split; [|split].
  - induction Hall as [|p p' l l' [Hk _] _ IHl]; simpl; congruence.
  - symmetry. eapply Forall2_length; eauto.
  - intros i p p' Hp Hp'.
    destruct (Forall2_lookup_lr _ _ _ _ _ _ Hall Hp Hp') as [Hk Hf]. auto.
Qed.

(** A store and a value lay out one tree at most. *)
Lemma rep_functional_mut (h : heap) :
  (∀ v t fp, rep h v t fp → ∀ t' fp', rep h v t' fp' → t = t' ∧ fp = fp') ∧
  (∀ ps ts fp, rep_props h ps ts fp →
     ∀ ts' fp', rep_props h ps ts' fp' → ts = ts' ∧ fp = fp').
Proof.
  apply rep_mutind; try (intros; match goal with
    | H : rep _ _ _ _ |- _ => inversion H; subst; auto
    | H : rep_props _ _ _ _ |- _ => inversion H; subst; auto end; fail).
  - intros a k ps ts fp Ha _ _ IH _ t' fp' H'.
    inversion H' as [ | | | | | a' k' ps' ts' fp0 Ha' _ Hps' _]; subst.
    rewrite Ha in Ha'. injection Ha' as <- <-.
    destruct (IH _ _ Hps') as [-> ->]. auto.
  - intros key v t ps ts fp1 fp2 _ IHv _ IHps _ ts' fp' H'.
    inversion H' as [|key' v' t' ps' ts0 fp1' fp2' Hv' Hps' _]; subst.
    destruct (IHv _ _ Hv') as [-> ->].
    destruct (IHps _ _ Hps') as [-> ->]. auto.
Qed.

Lemma rep_functional (h : heap) v t t' fp fp' :
  rep h v t fp → rep h v t' fp' → t = t'.
Proof.
  intros H H'. apply (proj1 (rep_functional_mut h) _ _ _ H _ _ H').
Qed.

(** The guard [if (req.f)] of [sanitizeInput] changes nothing: on a falsy
    value [sanitize] returns the value as it is. *)
Lemma sanitize_field_sanitize fuel (h : heap) v :
  sanitize_field (S fuel) h v = sanitize (S fuel) h v.
Proof.
  unfold sanitize_field. destruct v as [ | | b | f | [|c s] | a];
    try reflexivity; cbn [truthy]; case_match; reflexivity.
Qed.

(** [sanitizeInput] on a request whose body, query and params are three
    separate trees: each is cleaned, none disturbs another. *)
Lemma sanitizeInput_rep (h : heap) req tb tq tp fb fq fp n :
  rep h (body req) tb fb → rep h (query req) tq fq →
  rep h (params req) tp fp →
  fb ## fq → fb ## fp → fq ## fp →
  depth tb ≤ n → depth tq ≤ n → depth tp ≤ n →
  ∃ h' req',
    sanitizeInput (S n) h req = Some (h', req') ∧
    rep h' (body req') (spec_clean tb) fb ∧
    rep h' (query req') (spec_clean tq) fq ∧
    rep h' (params req') (spec_clean tp) fp.
Proof.
  intros Hb Hq Hp Dbq Dbp Dqp Lb Lq Lp.
  unfold sanitizeInput. rewrite !sanitize_field_sanitize.
  destruct (sanitize_rep (S n) h _ _ _ Hb) as (h1 & b' & Hs1 & Hb1 & Hf1);
    [lia|].
  rewrite Hs1. cbn [mbind option_bind].
  rewrite sanitize_field_sanitize.
  assert (Hq1 : rep h1 (query req) tq fq).
  { apply rep_frame with h; [exact Hq|]. intros a Ha. apply Hf1. set_solver. }
  destruct (sanitize_rep (S n) h1 _ _ _ Hq1) as (h2 & q' & Hs2 & Hq2 & Hf2);
    [lia|].
  rewrite Hs2. cbn [mbind option_bind].
  rewrite sanitize_field_sanitize.
  assert (Hp2 : rep h2 (params req) tp fp).
  { apply rep_frame with h; [exact Hp|]. intros a Ha.
    rewrite Hf2, Hf1; set_solver. }
  destruct (sanitize_rep (S n) h2 _ _ _ Hp2) as (h3 & p' & Hs3 & Hp3 & Hf3);
    [lia|].
  rewrite Hs3. cbn [mbind option_bind].
  eexists _, _. split; [reflexivity|]. cbn [body query params].
  split; [|split; [|exact Hp3]].
  - apply rep_frame with h1; [exact Hb1|]. intros a Ha.
    rewrite Hf3, Hf2; set_solver.
  - apply rep_frame with h2; [exact Hq2|]. intros a Ha.
    rewrite Hf3; set_solver.
Qed.

(** C3: on a payload tree [sanitize] returns, and the tree of the value it
    returns has the string leaves of the input, each one trimmed and then
    without its '<' and '>', so that no leaf holds either character; on
    [{"name": "  <b>hi</b>  "}] the result is [{"name": "bhi/b"}]. *)
Theorem sanitize_strips_string_leaves :
  (∀ (h : heap) v t fp, rep h v t fp →
     ∃ h' v' t',
       sanitize (S (depth t)) h v = Some (h', v') ∧
       rep h' v' t' fp ∧
       string_leaves t' =
         List.map (fun s => strip_angles (trim s)) (string_leaves t) ∧
       (∀ s c, s ∈ string_leaves t' → c ∈ s → is_angle c = false)) ∧
  sanitize 2 Examples.name_payload (VRef 0) =
    Some ([ Cell KObject [ (lit "name", VStr (lit "bhi/b")) ] ], VRef 0).
Proof.
  split; [|reflexivity].
  intros h v t fp Hrep.
  destruct (sanitize_rep (S (depth t)) h v t fp Hrep) as (h' & v' & Hs & Hr & _);
    [lia|].
  exists h', v', (spec_clean t). split; [exact Hs|]. split; [exact Hr|].
  split; [apply string_leaves_spec_clean | apply spec_clean_no_angle].
Qed.

Lemma sanitize_strips_string_leaves_witness :
  ∃ h' v' t',
    sanitize (S (depth Examples.name_tree)) Examples.name_payload (VRef 0)
      = Some (h', v') ∧
    rep h' v' t' ({[0]} ∪ (∅ ∪ ∅)) ∧
    string_leaves t' =
      List.map (fun s => strip_angles (trim s))
        (string_leaves Examples.name_tree) ∧
    (∀ s c, s ∈ string_leaves t' → c ∈ s → is_angle c = false).
Proof.
  apply (proj1 sanitize_strips_string_leaves).
  eapply rep_node; [reflexivity | | | set_solver].
  - repeat constructor. set_solver.
  - repeat constructor. set_solver.
Defined.

(** C8: on a payload tree [sanitize] changes string leaves only: the tree
    of the value it returns has, node by node, the kind, the keys and the
    order of the input, so an array keeps its length; every other scalar
    is the one of the input; and no cell outside the tree is written. *)
Theorem sanitize_changes_string_leaves_only (h : heap) v t fp :
  rep h v t fp →
  ∃ h' v' t',
    sanitize (S (depth t)) h v = Some (h', v') ∧
    rep h' v' t' fp ∧
    frame t t' ∧
    (∀ a, a ∉ fp → h' !! a = h !! a).
Proof.
  intros Hrep.
  destruct (sanitize_rep (S (depth t)) h v t fp Hrep) as (h' & v' & Hs & Hr & Hf);
    [lia|].
  exists h', v', (spec_clean t). auto using frame_spec_clean.
Qed.

Lemma sanitize_changes_string_leaves_only_witness :
  ∃ h' v' t',
    sanitize (S (depth Examples.script_tree)) Examples.script_payload (VRef 0)
      = Some (h', v') ∧
    rep h' v' t' ({[0]} ∪ (∅ ∪ (∅ ∪ (∅ ∪ ∅)))) ∧
    frame Examples.script_tree t' ∧
    (∀ a, a ∉ ({[0]} ∪ (∅ ∪ (∅ ∪ (∅ ∪ ∅))) : gset addr) →
          h' !! a = Examples.script_payload !! a).
Proof.
  apply sanitize_changes_string_leaves_only.
  eapply rep_node; [reflexivity | | | set_solver].
  - repeat constructor; set_solver.
  - repeat constructor; set_solver.
Defined.

(** The sequence [["<script>", 5, null]] becomes [["script", 5, null]]. *)
Example sanitize_script_payload :
  sanitize 2 Examples.script_payload (VRef 0) =
    Some ([ Cell KArray [ (lit "0", VStr (lit "script"));
                          (lit "1", VNum 5%float);
                          (lit "2", VNull) ] ], VRef 0).
Proof. reflexivity. Qed.

(** ** Termination *)

Lemma assoc_get_elem ps key v : assoc_get ps key = Some v → (key, v) ∈ ps.
Proof.
  induction ps as [|[k w] ps IH]; simpl; [discriminate|].
  destruct (str_eqb k key) eqn:E.
  - intros [= ->]. apply str_eqb_eq in E as ->. left.
  - intros H. right. auto.
Qed.

Lemma assoc_set_elem ps key v k w :
  (k, w) ∈ assoc_set ps key v → (k, w) ∈ ps ∨ w = v.
Proof.
  induction ps as [|[k0 w0] ps IH]; simpl.
  - intros H. apply list_elem_of_singleton in H as [= -> ->]. auto.
  - destruct (str_eqb k0 key); intros H;
      apply elem_of_cons in H as [[= -> ->] | H].
    + auto.
    + left; right; exact H.
    + left; left.
    + destruct (IH H); [left; right; assumption | auto].
Qed.

Lemma get_prop_ref (h : heap) a key b :
  get_prop h a key = VRef b →
  ∃ c, h !! a = Some c ∧ (key, VRef b) ∈ cell_props c.
Proof.
  unfold get_prop. destruct (h !! a) as [c|]; [|discriminate].
  destruct (assoc_get _ key) as [v|] eqn:E; simpl; [|discriminate].
  intros ->. eauto using assoc_get_elem.
Qed.

Lemma refs_within_refl (h : heap) : refs_within h h.
Proof. intros a c Ha. eauto. Qed.

Lemma refs_within_trans (h1 h2 h3 : heap) :
  refs_within h1 h2 → refs_within h2 h3 → refs_within h1 h3.
Proof.
  intros H12 H23 a c1 H1.
  destruct (H12 a c1 H1) as (c2 & H2 & Hsub12).
  destruct (H23 a c2 H2) as (c3 & H3 & Hsub23).
  exists c3. split; [exact H3|]. intros key b Hin.
  destruct (Hsub12 key b Hin) as [key' Hin']. eauto.
Qed.

Lemma acyclic_refs_within (h h' : heap) rank :
  acyclic h rank → refs_within h' h → acyclic h' rank.
Proof.
  intros Hac Hsub a c' r key b Ha Hr Hin.
  destruct (Hsub a c' Ha) as (c & Hc & Hrefs).
  destruct (Hrefs key b Hin) as [key' Hin']. eauto.
Qed.

(** An assignment [obj[key] = v] adds no reference when [v] is one that
    the object held. *)
Lemma set_prop_refs_within (h1 h : heap) a key v :
  refs_within h1 h →
  (∀ b, v = VRef b →
     ∃ c key', h !! a = Some c ∧ (key', VRef b) ∈ cell_props c) →
  refs_within (set_prop h1 a key v) h.
Proof.
  intros H1 Hv x c' Hx. unfold set_prop in Hx.
  destruct (h1 !! a) as [c1|] eqn:Ha; [|auto].
  destruct (decide (a = x)) as [<-|Hne].
  - rewrite list_lookup_insert_eq in Hx by (eapply lookup_lt_Some; eauto).
    injection Hx as <-.
    destruct (H1 a c1 Ha) as (c & Hc & Hrefs). exists c; split; [exact Hc|].
    simpl. intros k b Hin.
    apply assoc_set_elem in Hin as [Hin | Hin]; [eauto|].
    destruct (Hv b) as (c0 & key' & Hc0 & Hin0); [symmetry; exact Hin|].
    pose proof (eq_trans (eq_sym Hc0) Hc) as E. injection E as ->. eauto.
  - rewrite list_lookup_insert_ne in Hx by auto. auto.
Qed.

Section Termination.

Variable rank : addr → option nat.
Variable n : nat.
Hypothesis calls_return :
  ∀ (h : heap) v, acyclic h rank → 0 < n →
    (∀ a, v = VRef a → ∃ r, rank a = Some r ∧ S r < n) →
    ∃ h' v', sanitize n h v = Some (h', v') ∧ refs_within h' h ∧
             (v' = v ∨ ∃ s, v' = VStr s).

Lemma for_in_returns (h0 : heap) a r keys :
  acyclic h0 rank → rank a = Some r → S r ≤ n →
  ∀ hi : heap, refs_within hi h0 →
    ∃ h', for_in (sanitize n) a keys hi = Some h' ∧ refs_within h' h0.
Proof.
  intros Hac Hr Hrn. induction keys as [|key keys IH]; intros hi Hi; simpl.
  - eauto.
  - assert (Hrefs : ∀ b, get_prop hi a key = VRef b →
              ∃ c key', h0 !! a = Some c ∧ (key', VRef b) ∈ cell_props c).
    { intros b Hb. apply get_prop_ref in Hb as (ci & Hci & Hin).
      destruct (Hi a ci Hci) as (c & Hc & Hsub).
      destruct (Hsub _ _ Hin) as [key' Hin']. eauto. }
    destruct (calls_return hi (get_prop hi a key))
      as (h1 & v' & Hs & H1 & Hv').
    + eapply acyclic_refs_within; eauto.
    + lia.
    + intros b Hb. destruct (Hrefs b Hb) as (c & key' & Hc & Hin).
      destruct (Hac a c r key' b Hc Hr Hin) as (r' & Hr' & Hlt).
      exists r'; split; [exact Hr' | lia].
    + rewrite Hs. simpl. apply IH. apply set_prop_refs_within.
      * eapply refs_within_trans; eauto.
      * intros b ->. destruct Hv' as [Hv' | [s Hv']]; [|discriminate].
        apply Hrefs. symmetry; exact Hv'.
Qed.

End Termination.

(** Where no reference cycle can be reached, a call of [sanitize] that may
    nest deeper than the rank of its argument returns. *)
Lemma sanitize_returns_ranked rank n :
  ∀ (h : heap) v, acyclic h rank → 0 < n →
    (∀ a, v = VRef a → ∃ r, rank a = Some r ∧ S r < n) →
    ∃ h' v', sanitize n h v = Some (h', v') ∧ refs_within h' h ∧
             (v' = v ∨ ∃ s, v' = VStr s).
Proof.
  induction n as [|n IH]; intros h v Hac Hn Hv; [lia|].
  destruct v as [ | | b | f | s | a]; simpl;
    try (eexists _, _; split; [reflexivity|];
         split; [apply refs_within_refl | eauto]; fail).
  destruct (h !! a) as [c|] eqn:Ha.
  - destruct (Hv a eq_refl) as (r & Hr & Hlt).
    destruct (for_in_returns rank n IH h a r (List.map fst (cell_props c))
                Hac Hr ltac:(lia) h (refs_within_refl h)) as (h' & Hfor & Hsub).
    rewrite Hfor. simpl. eauto 6.
  - eexists _, _; split; [reflexivity|].
    split; [apply refs_within_refl | eauto].
Qed.

(** C4, as the specification states it, fails: on the object that refers
    to itself no depth of calls is enough, [sanitize] calls itself on the
    same object again and never returns. *)
Lemma sanitize_self_referential_never_returns :
  ¬ Spec.sanitize_always_returns.
Proof.
  intros H. destruct (H Examples.self_referential (VRef 0)) as [fuel Hsome].
  assert (Hnone : ∀ n, sanitize n Examples.self_referential (VRef 0) = None).
  { clear. induction n as [|n IH]; [reflexivity|].
    simpl. unfold get_prop; simpl. rewrite IH. reflexivity. }
  rewrite Hnone in Hsome. destruct Hsome as [r Hr]. discriminate Hr.
Qed.

(** C4, amended: where no reference cycle can be reached from the value,
    shared objects allowed, [sanitize] returns a result at every depth of
    calls from some depth on. *)
Theorem sanitize_returns_without_cycle (h : heap) rank v :
  acyclic h rank →
  (∀ a, v = VRef a → is_Some (rank a)) →
  ∃ fuel, ∀ fuel', fuel ≤ fuel' → is_Some (sanitize fuel' h v).
Proof.
  intros Hac Hv.
  exists (match v with VRef a => default 0 (rank a) + 2 | _ => 1 end).
  intros fuel' Hle.
  destruct (sanitize_returns_ranked rank fuel' h v Hac)
    as (h' & v' & Hs & _).
  - destruct v; lia.
  - intros a ->. destruct (Hv a eq_refl) as [r Hr]. rewrite Hr in Hle.
    simpl in Hle. exists r. split; [exact Hr | lia].
  - rewrite Hs. eauto.
Qed.

Lemma sanitize_returns_without_cycle_witness :
  ∃ fuel, ∀ fuel', fuel ≤ fuel' →
    is_Some (sanitize fuel' Examples.shared_payload (VRef 0)).
Proof.
  apply (sanitize_returns_without_cycle _ Examples.shared_rank).
  - intros a c r key b Ha Hr Hin.
    destruct a as [|[|a]]; simpl in *; try discriminate.
    + injection Ha as <-. injection Hr as <-. simpl in Hin.
      exists 0. split; [|lia].
      apply elem_of_cons in Hin as [[= _ ->] | Hin]; [reflexivity|].
      apply elem_of_cons in Hin as [[= _ ->] | Hin]; [reflexivity|].
      inversion Hin.
    + injection Ha as <-. simpl in Hin.
      apply elem_of_cons in Hin as [[=] | Hin]. inversion Hin.
  - intros a [= <-]. simpl. eauto.
Defined.

(** An object reached along two paths is cleaned once on each: its leaf
    "< a" is stripped to " a" and then trimmed to "a". *)
Example sanitize_shared_payload :
  sanitize 3 Examples.shared_payload (VRef 0) =
    Some ([ Cell KObject [ (lit "a", VRef 1); (lit "b", VRef 1) ];
            Cell KObject [ (lit "x", VStr (lit "a")) ] ], VRef 0) ∧
  clean_string (lit "< a") = lit " a".
Proof. split; reflexivity. Qed.

End SanitizerFacts.

(** * Rate-limit policies *)
Section RateLimitFacts.
Import RateLimit.
Local Open Scope Z_scope.

Example parseInt_samples :
  parseInt (lit "10") = Some 10 ∧
  parseInt (lit "  42abc") = Some 42 ∧
  parseInt (lit "-7") = Some (-7) ∧
  parseInt (lit "0x1f") = Some 31 ∧
  parseInt (lit "0") = Some 0 ∧
  parseInt (lit "") = None ∧
  parseInt (lit "abc") = None ∧
  parseInt (lit "undefined") = None.
Proof. repeat split. Qed.

(** [parseInt(x) || 5] is 5 when [x] does not parse, and when it parses
    to 0. *)
Lemma or_default_nan d : or_default None d = d.
Proof. reflexivity. Qed.

Lemma or_default_number z d : z ≠ 0 → or_default (Some z) d = z.
Proof.
  intros Hz. unfold or_default. destruct (Z.eqb_spec z 0); congruence.
Qed.

Lemma api_skips req :
  skips api req = true ↔
  startsWith (path req) (lit "/api/admin") = true ∧
  truthy (session_authenticated req) = true.
Proof.
  unfold skips, api, rateLimit, js_and; cbn [skip truthy].
  destruct (startsWith (path req) _); split.
  - intros H; auto.
  - intros [_ H]; exact H.
  - discriminate.
  - intros [H _]; discriminate H.
Qed.

(** A session is authenticated when the request has a session object and
    its [authenticated] property is truthy; this is what
    [req.session?.authenticated] tests. *)
Lemma session_authenticated_truthy req :
  truthy (session_authenticated req) = true ↔
  ∃ s, session req = Some s ∧ truthy (authenticated s) = true.
Proof.
  unfold session_authenticated. destruct (session req) as [s|]; split.
  - eauto.
  - intros (s' & [= <-] & H); exact H.
  - discriminate.
  - intros (s' & [=] & _).
Qed.

(** C5: the registry holds the policies api, login and form. api: window
    of 15 minutes, limit 100, skipped exactly when the path starts with
    /api/admin and the request has a session whose [authenticated] is
    truthy. login: window of 15 minutes, limit 5 when
    [MAX_LOGIN_ATTEMPTS] is unset, skipped exactly when the request has a
    session whose [authenticated] is truthy. form: window of 1 minute,
    limit 3, no skip predicate, so no request is skipped. *)
Theorem rateLimitConfigs_policies env node_env allowed req :
  rateLimitConfigs env =
    [ (lit "api", api); (lit "login", login env); (lit "form", form) ] ∧
  windowMs api = 900000 ∧ max api = 100 ∧
  (skips api req = true ↔
   (∃ rest, path req = lit "/api/admin" ++ rest) ∧
   (∃ s, session req = Some s ∧ truthy (authenticated s) = true)) ∧
  windowMs (login env) = 900000 ∧
  max (login {| NODE_ENV := node_env; ALLOWED_ORIGINS := allowed;
                MAX_LOGIN_ATTEMPTS := None |}) = 5 ∧
  (skips (login env) req = true ↔
   ∃ s, session req = Some s ∧ truthy (authenticated s) = true) ∧
  windowMs form = 60000 ∧ max form = 3 ∧ skip form = None ∧
  (∀ r, skips form r = false).
Proof.
  repeat (split; [reflexivity|]).
  split.
  { rewrite api_skips, startsWith_prefix, session_authenticated_truthy.
    reflexivity. }
  repeat (split; [reflexivity|]).
  split; [apply session_authenticated_truthy|].
  repeat split.
Qed.

(** C6, as the specification states it, fails: with
    [MAX_LOGIN_ATTEMPTS=abc] the limiters are built. *)
Lemma unparsable_limit_is_not_fatal : ¬ Spec.invalid_limit_is_fatal.
Proof.
  intros H.
  destruct (H Examples.unparsable_env (lit "abc") eq_refl eq_refl) as [e He].
  discriminate He.
Qed.

(** C6, amended: when [MAX_LOGIN_ATTEMPTS] does not parse as a number the
    limiters are built all the same, and the login limit is the default
    5. *)
Theorem unparsable_limit_falls_back env s :
  MAX_LOGIN_ATTEMPTS env = Some s → parseInt s = None →
  load_rateLimitConfigs env = Started (rateLimitConfigs env) ∧
  max (login env) = 5.
Proof.
  intros Hs Hnan. split; [reflexivity|].
  unfold login, rateLimit; cbn [max]. rewrite Hs. cbn [env_to_string].
  rewrite Hnan. reflexivity.
Qed.

Lemma unparsable_limit_falls_back_witness :
  load_rateLimitConfigs Examples.unparsable_env =
    Started (rateLimitConfigs Examples.unparsable_env) ∧
  max (login Examples.unparsable_env) = 5.
Proof.
  apply (unparsable_limit_falls_back Examples.unparsable_env (lit "abc"));
    reflexivity.
Defined.

(** C7: each rejection handler answers with status 429. The bodies of api
    and login have the fields error and retryAfter, both strings; the body
    of form has success, which is false, and error, a string, and no
    retryAfter. *)
Theorem rejection_responses env (h : heap) req :
  let api_res := snd (handler api h req) in
  let login_res := snd (handler (login env) h req) in
  let form_res := snd (handler form h req) in
  status api_res = 429 ∧ status login_res = 429 ∧ status form_res = 429 ∧
  (∃ e r, json api_res = [ (lit "error", VStr e); (lit "retryAfter", VStr r) ]) ∧
  (∃ e r, json login_res = [ (lit "error", VStr e); (lit "retryAfter", VStr r) ]) ∧
  (∃ e, json form_res = [ (lit "success", VBool false); (lit "error", VStr e) ]) ∧
  assoc_get (json form_res) (lit "retryAfter") = None.
Proof.
  cbn zeta. repeat (split; [reflexivity|]).
  split; [eexists _, _; reflexivity|].
  split; [eexists _, _; reflexivity|].
  split; [eexists; reflexivity | reflexivity].
Qed.

End RateLimitFacts.

(** * More on strings: trimming, cleaning, splitting *)
Section CleaningFacts.
Import Sanitizer Facts.

Lemma trimStart_white ws s :
  Forall (fun c => is_white_space c = true) ws →
  trimStart (ws ++ s) = trimStart s.
Proof. induction 1 as [|c ws Hc _ IH]; simpl; [|rewrite Hc]; auto. Qed.

Lemma trimStart_all_white ws :
  Forall (fun c => is_white_space c = true) ws → trimStart ws = [].
Proof.
  intros H. rewrite <- (app_nil_r ws). rewrite trimStart_white; auto.
Qed.

Lemma trimStart_fixed s :
  match s with c :: _ => is_white_space c = false | [] => True end →
  trimStart s = s.
Proof. destruct s as [|c s]; simpl; [auto | intros ->; reflexivity]. Qed.

Lemma trimStart_app s t :
  trimStart (s ++ t) =
  match trimStart s with
  | [] => trimStart t
  | _ :: _ => trimStart s ++ t
  end.
Proof.
  induction s as [|c s IH]; simpl; [reflexivity|].
  destruct (is_white_space c); [exact IH | reflexivity].
Qed.

Lemma trimEnd_white s ws :
  Forall (fun c => is_white_space c = true) ws →
  trimEnd (s ++ ws) = trimEnd s.
Proof.
  intros H. unfold trimEnd. rewrite rev_app_distr, trimStart_white; auto.
  apply Forall_rev; exact H.
Qed.

Lemma trimEnd_fixed s :
  (∀ r c, s = r ++ [c] → is_white_space c = false) → trimEnd s = s.
Proof.
  intros H. unfold trimEnd. rewrite trimStart_fixed.
  - apply rev_involutive.
  - destruct (rev s) as [|c r] eqn:E; [exact I|].
    apply (H (rev r)). rewrite <- (rev_involutive s), E. reflexivity.
Qed.

(** Trimming what is trimmed changes nothing. *)
Lemma trim_idempotent s : trim (trim s) = trim s.
Proof.
  destruct (trim_no_edge_space s) as [Hfirst Hlast].
  unfold trim at 1. rewrite trimStart_fixed.
  - apply trimEnd_fixed; exact Hlast.
  - destruct (trim s) as [|c r] eqn:E; [exact I | eapply Hfirst; eauto].
Qed.

(** White space around a string does not show after [trim]. *)
Lemma trim_padded ws1 s ws2 :
  Forall (fun c => is_white_space c = true) ws1 →
  Forall (fun c => is_white_space c = true) ws2 →
  trim (ws1 ++ s ++ ws2) = trim s.
Proof.
  intros H1 H2. unfold trim. rewrite trimStart_white by exact H1.
  rewrite trimStart_app. destruct (trimStart s) as [|c r] eqn:E.
  - rewrite trimStart_all_white by exact H2. reflexivity.
  - apply trimEnd_white; exact H2.
Qed.

Lemma filter_all {A} (f : A → bool) l :
  Forall (fun x => f x = true) l → List.filter f l = l.
Proof. induction 1 as [|x l Hx _ IH]; simpl; [|rewrite Hx, IH]; auto. Qed.

Lemma filter_none {A} (f : A → bool) l :
  Forall (fun x => f x = false) l → List.filter f l = [].
Proof. induction 1 as [|x l Hx _ IH]; simpl; [|rewrite Hx]; auto. Qed.

Lemma filter_filter_weaker {A} (f g : A → bool) l :
  (∀ x, f x = true → g x = true) →
  List.filter f (List.filter g l) = List.filter f l.
Proof.
  intros Hfg. induction l as [|x l IH]; simpl; [reflexivity|].
  destruct (g x) eqn:Hg; simpl.
  - rewrite IH. reflexivity.
  - destruct (f x) eqn:Hf; [|exact IH].
    rewrite (Hfg x Hf) in Hg. discriminate Hg.
Qed.

Lemma filter_sublist {A} (f : A → bool) l : sublist (List.filter f l) l.
Proof.
  induction l as [|x l IH]; simpl; [constructor|].
  destruct (f x); constructor; exact IH.
Qed.

Lemma trim_sublist s : sublist (trim s) s.
Proof.
  destruct (trim_split s) as (ws1 & ws2 & E & _).
  rewrite E at 2. apply sublist_inserts_l, sublist_inserts_r. reflexivity.
Qed.

Lemma clean_string_no_angle s : no_angle (clean_string s).
Proof. intros c Hc. eapply strip_angles_clean; exact Hc. Qed.

Lemma strip_angles_fixed s : no_angle s → strip_angles s = s.
Proof.
  intros H. unfold strip_angles. apply filter_all, Forall_forall.
  intros c Hc. rewrite (H c Hc). reflexivity.
Qed.

(** The sanitizer of strings adds nothing and reorders nothing, and what
    it drops is white space or one of '<' and '>': every other character
    of the input is in the output, as often and in the same order. *)
Theorem clean_string_drops_only_space_and_angles s :
  sublist (clean_string s) s ∧
  List.filter (fun c => negb (droppable c)) (clean_string s) =
  List.filter (fun c => negb (droppable c)) s.
Proof.
  split.
  - unfold clean_string, strip_angles.
    etransitivity; [apply filter_sublist | apply trim_sublist].
  - unfold clean_string, strip_angles. rewrite filter_filter_weaker.
    + destruct (trim_split s) as (ws1 & ws2 & E & H1 & H2).
      rewrite E at 2. rewrite !List.filter_app.
      rewrite (filter_none _ ws1), (filter_none _ ws2), app_nil_r.
      * reflexivity.
      * eapply Forall_impl; [exact H2|]. intros c Hc. unfold droppable.
        rewrite Hc. reflexivity.
      * eapply Forall_impl; [exact H1|]. intros c Hc. unfold droppable.
        rewrite Hc. reflexivity.
    + intros c. unfold droppable.
      destruct (is_white_space c), (is_angle c); simpl; congruence.
Qed.

(** A second pass of the sanitizer only trims, and a third changes
    nothing: after two passes the string has no '<' or '>' and no white
    space at either end. *)
Theorem clean_string_settles s :
  let once := clean_string s in
  let twice := clean_string once in
  twice = trim once ∧
  clean_string twice = twice ∧
  no_angle twice ∧
  (∀ c r, twice = c :: r → is_white_space c = false) ∧
  (∀ r c, twice = r ++ [c] → is_white_space c = false).
Proof.
  cbn zeta.
  assert (Htrim : ∀ x, no_angle x → clean_string x = trim x).
  { intros x Hx. unfold clean_string. apply strip_angles_fixed.
    intros c Hc. apply Hx. eapply elem_of_sublist; [exact Hc|].
    apply trim_sublist. }
  pose proof (clean_string_no_angle s) as H1.
  rewrite (Htrim _ H1).
  assert (H2 : no_angle (trim (clean_string s))).
  { intros c Hc. apply H1. eapply elem_of_sublist; [exact Hc|].
    apply trim_sublist. }
  split; [reflexivity|]. split; [|split; [exact H2|]].
  - rewrite (Htrim _ H2). apply trim_idempotent.
  - apply trim_no_edge_space.
Qed.

End CleaningFacts.

(** * More on the origin checks *)
Section AllowListFacts.
Import Origin Facts.

Lemma split_nonempty sep s : split sep s ≠ [].
Proof.
  destruct s as [|c s]; simpl; [discriminate|].
  destruct (c =? sep)%N; [discriminate|].
  destruct (split sep s); discriminate.
Qed.

(** Joining the pieces of [split] gives the string back. *)
Lemma join_split sep s : join sep (split sep s) = s.
Proof.
  induction s as [|c s IH]; simpl; [reflexivity|].
  pose proof (split_nonempty sep s) as Hne.
  destruct (N.eqb_spec c sep) as [->|Hc].
  - destruct (split sep s) as [|w ws] eqn:E; [congruence|].
    change (join sep ([] :: w :: ws)) with (sep :: join sep (w :: ws)).
    rewrite IH. reflexivity.
  - destruct (split sep s) as [|w ws] eqn:E; [congruence|].
    destruct ws as [|w' ws]; simpl in *; rewrite <- IH; reflexivity.
Qed.

Lemma split_no_sep sep s : Forall (fun p => sep ∉ p) (split sep s).
Proof.
  induction s as [|c s IH]; simpl.
  - constructor; [|constructor]. intros H; inversion H.
  - destruct (N.eqb_spec c sep) as [->|Hc].
    + constructor; [|exact IH]. intros H; inversion H.
    + destruct (split sep s) as [|w ws]; [repeat constructor|].
      * intros H. apply list_elem_of_singleton in H. congruence.
      * inversion IH as [|? ? Hw Hws]; subst. constructor; [|exact Hws].
        intros H. apply elem_of_cons in H as [H|H]; [congruence|auto].
Qed.

Lemma split_length sep s :
  length (split sep s) = S (length (List.filter (fun c => c =? sep)%N s)).
Proof.
  induction s as [|c s IH]; simpl; [reflexivity|].
  destruct (c =? sep)%N; simpl; [rewrite IH; reflexivity|].
  destruct (split sep s) as [|w ws]; simpl in *; [discriminate IH | exact IH].
Qed.

Lemma split_piece sep p : sep ∉ p → split sep p = [p].
Proof.
  induction p as [|c p IH]; simpl; intros H; [reflexivity|].
  apply not_elem_of_cons in H as [Hc Hp].
  destruct (N.eqb_spec c sep) as [->|_]; [congruence|].
  rewrite IH by exact Hp. reflexivity.
Qed.

Lemma split_piece_sep sep p rest :
  sep ∉ p → split sep (p ++ sep :: rest) = p :: split sep rest.
Proof.
  induction p as [|c p IH]; simpl; intros H.
  - rewrite N.eqb_refl. reflexivity.
  - apply not_elem_of_cons in H as [Hc Hp].
    destruct (N.eqb_spec c sep) as [->|_]; [congruence|].
    rewrite IH by exact Hp. reflexivity.
Qed.

(** Splitting what was joined gives the pieces back, when no piece holds
    the separator. *)
Lemma split_join sep ps :
  ps ≠ [] → Forall (fun p => sep ∉ p) ps → split sep (join sep ps) = ps.
Proof.
  intros Hne H. induction H as [|p ps Hp Hps IH]; [congruence|].
  destruct ps as [|q ps].
  - simpl. apply split_piece; exact Hp.
  - change (join sep (p :: q :: ps)) with (p ++ sep :: join sep (q :: ps)).
    rewrite split_piece_sep by exact Hp. rewrite IH; [reflexivity|discriminate].
Qed.

Lemma white_space_no_comma ws :
  Forall (fun c => is_white_space c = true) ws → 0x2C%N ∉ ws.
Proof.
  intros H Hin. rewrite Forall_forall in H. specialize (H _ Hin).
  discriminate H.
Qed.

(** The configured allow-list has one entry more than the variable has
    commas; an entry has no comma and no white space at either end, and
    is made of characters of the variable. *)
Theorem parse_allowed_entries s :
  length (parse_allowed s) =
    S (length (List.filter (fun c => c =? 0x2C)%N s)) ∧
  ∀ e, e ∈ parse_allowed s →
    (0x2C%N ∉ e) ∧
    (∀ c r, e = c :: r → is_white_space c = false) ∧
    (∀ r c, e = r ++ [c] → is_white_space c = false) ∧
    sublist e s.
Proof.
  unfold parse_allowed. split.
  - rewrite length_map. apply split_length.
  - intros e He. apply list_elem_of_In, in_map_iff in He as (p & <- & Hp).
    apply list_elem_of_In in Hp.
    pose proof (split_no_sep 0x2C%N s) as Hno. rewrite Forall_forall in Hno.
    split; [|split; [|split]].
    + intros Hin. apply (Hno p Hp). eapply elem_of_sublist; [exact Hin|].
      apply trim_sublist.
    + apply trim_no_edge_space.
    + apply trim_no_edge_space.
    + etransitivity; [apply trim_sublist|].
      rewrite <- (join_split 0x2C%N s). clear Hno.
      induction (split 0x2C%N s) as [|q qs IH]; [inversion Hp|].
      destruct qs as [|q' qs].
      * apply list_elem_of_singleton in Hp as ->. reflexivity.
      * change (join 0x2C%N (q :: q' :: qs))
          with (q ++ 0x2C%N :: join 0x2C%N (q' :: qs)).
        apply elem_of_cons in Hp as [->|Hp].
        -- apply sublist_inserts_r. reflexivity.
        -- apply sublist_inserts_l, sublist_cons, IH. exact Hp.
Qed.

(** Origins written between commas, each with any white space around it,
    are read back trimmed, one entry each, in order; and with the
    variable set to that text both checks allow every one of them. *)
Theorem allowed_origins_round_trip
  (entries : list (jsstring * jsstring * jsstring)) :
  entries ≠ [] →
  Forall (fun '(ws1, o, ws2) =>
            Forall (fun c => is_white_space c = true) ws1 ∧ (0x2C%N ∉ o) ∧
            Forall (fun c => is_white_space c = true) ws2) entries →
  let text :=
    join 0x2C%N (List.map (fun '(ws1, o, ws2) => ws1 ++ o ++ ws2) entries) in
  parse_allowed text = List.map (fun '(_, o, _) => trim o) entries ∧
  ∀ env ws1 o ws2,
    ALLOWED_ORIGINS env = Some text → (ws1, o, ws2) ∈ entries →
    cors_allows env (Some (trim o)) = true ∧
    validateWebSocketOrigin env (Some (trim o)) = true.
Proof.
  intros Hne Hall text.
  assert (Hparse :
    parse_allowed text = List.map (fun '(_, o, _) => trim o) entries).
  { unfold parse_allowed, text. rewrite split_join.
    - rewrite List.map_map. apply map_ext_Forall.
      eapply Forall_impl; [exact Hall|].
      intros [[ws1 o] ws2] (H1 & _ & H2). apply trim_padded; assumption.
    - destruct entries; [congruence | discriminate].
    - apply Forall_forall. intros p Hp.
      apply list_elem_of_In, in_map_iff in Hp as ([[ws1 o] ws2] & <- & He).
      rewrite Forall_forall in Hall.
      apply list_elem_of_In in He. destruct (Hall _ He) as (H1 & Ho & H2).
      rewrite !elem_of_app. intros [H | [H | H]].
      + apply (white_space_no_comma ws1 H1 H).
      + exact (Ho H).
      + apply (white_space_no_comma ws2 H2 H). }
  split; [exact Hparse|].
  intros env ws1 o ws2 Henv Hin.
  destruct (trim o) as [|c r] eqn:Ho; [split; reflexivity|].
  assert (Hmem : ∀ default, (c :: r) ∈ resolve_allowed env default).
  { intros default. unfold resolve_allowed. rewrite Henv.
    destruct text as [|t0 text'] eqn:Et.
    - exfalso. assert (Hp : parse_allowed [] = [[]]) by reflexivity.
      rewrite Hparse in Hp.
      destruct entries as [|e [|e' es]]; try discriminate Hp.
      apply list_elem_of_singleton in Hin as <-.
      simpl in Hp. congruence.
    - cbn [truthy_string]. rewrite Hparse, <- Ho.
      apply list_elem_of_In, in_map_iff. exists (ws1, o, ws2).
      split; [reflexivity | apply list_elem_of_In; exact Hin]. }
  split.
  - apply cors_allows_true. right; right. eexists; split; [reflexivity|].
    left. apply Hmem.
  - apply validateWebSocketOrigin_true. right; right.
    eexists; split; [reflexivity|]. left. apply Hmem.
Qed.

Lemma allowed_origins_round_trip_witness :
  parse_allowed (lit "https://a.example, http://b.example")
    = [ lit "https://a.example"; lit "http://b.example" ].
Proof.
  pose proof (allowed_origins_round_trip
    [ ([], lit "https://a.example", []);
      (lit " ", lit "http://b.example", []) ]) as H.
  apply H; [discriminate|].
  repeat constructor; intros Hin; apply list_elem_of_In in Hin; simpl in Hin;
    repeat (destruct Hin as [Hin | Hin]; [discriminate Hin|]); exact Hin.
Defined.

End AllowListFacts.

(** * The two origin checks compared, and what the CORS check logs *)
Section OriginCompared.
Import Origin.

Lemma arr_includes_snoc arr y x :
  arr_includes (arr ++ [y]) x = arr_includes arr x || str_eqb y x.
Proof.
  induction arr as [|z arr IH]; simpl.
  - apply orb_false_r.
  - rewrite IH. apply orb_assoc.
Qed.

Lemma default_lists_snoc :
  cors_default_origins =
  ws_default_origins ++ [lit "https://www.ajkcleaners.de"].
Proof. reflexivity. Qed.

Lemma cors_allows_nonempty env c o :
  cors_allows env (Some (c :: o)) =
  arr_includes (cors_allowedOrigins env) (c :: o)
  || negb (isProduction env) && includes (c :: o) (lit "localhost").
Proof.
  unfold cors_allows, corsConfig_origin. cbn [truthy_string negb].
  rewrite indexOf_includes.
  destruct (arr_includes _ _ || _); reflexivity.
Qed.

(** With the default lists in use, the CORS check allows what the
    WebSocket check allows and one origin more. *)
Lemma default_decisions env origin :
  ALLOWED_ORIGINS env = None ∨ ALLOWED_ORIGINS env = Some (lit "") →
  cors_allows env origin =
  validateWebSocketOrigin env origin
  || match origin with
     | Some o => str_eqb (lit "https://www.ajkcleaners.de") o
     | None => false
     end.
Proof.
  intros Henv.
  assert (Hc : cors_allowedOrigins env = cors_default_origins).
  { unfold cors_allowedOrigins, resolve_allowed.
    destruct Henv as [-> | ->]; reflexivity. }
  assert (Hw : ws_allowedOrigins env = ws_default_origins).
  { unfold ws_allowedOrigins, resolve_allowed.
    destruct Henv as [-> | ->]; reflexivity. }
  destruct origin as [[|c o]|]; [reflexivity | | reflexivity].
  rewrite cors_allows_nonempty, Hc, default_lists_snoc, arr_includes_snoc.
  unfold validateWebSocketOrigin. cbn [truthy_string negb]. rewrite Hw.
  destruct (arr_includes ws_default_origins (c :: o)),
    (str_eqb (lit "https://www.ajkcleaners.de") (c :: o)),
    (negb (isProduction env) && includes (c :: o) (lit "localhost"));
    reflexivity.
Qed.

Lemma ws_rejects_ajkcleaners env :
  ALLOWED_ORIGINS env = None ∨ ALLOWED_ORIGINS env = Some (lit "") →
  validateWebSocketOrigin env (Some (lit "https://www.ajkcleaners.de")) = false.
Proof.
  intros Henv. unfold validateWebSocketOrigin, ws_allowedOrigins,
    resolve_allowed.
  destruct Henv as [-> | ->]; cbn [truthy_string negb lit];
    (apply orb_false_iff; split; [reflexivity|]);
    apply andb_false_iff; right; reflexivity.
Qed.

(** Whatever the environment, the WebSocket check allows no origin that
    the CORS check rejects, and the two differ on one input only: the
    origin https://www.ajkcleaners.de while [ALLOWED_ORIGINS] is unset or
    empty. *)
Theorem cors_ws_differ_exactly env origin :
  (validateWebSocketOrigin env origin = true → cors_allows env origin = true) ∧
  (cors_allows env origin ≠ validateWebSocketOrigin env origin ↔
   (ALLOWED_ORIGINS env = None ∨ ALLOWED_ORIGINS env = Some (lit "")) ∧
   origin = Some (lit "https://www.ajkcleaners.de")).
Proof.
  destruct (ALLOWED_ORIGINS env) as [[|c s]|] eqn:Henv.
  - pose proof (default_decisions env origin) as Hd.
    pose proof (ws_rejects_ajkcleaners env) as Hw.
    rewrite Henv in Hd, Hw. specialize (Hd (or_intror eq_refl)).
    specialize (Hw (or_intror eq_refl)). split.
    + intros H. rewrite Hd, H. reflexivity.
    + split.
      * intros Hne. split; [right; reflexivity|].
        destruct origin as [o|].
        -- destruct (str_eqb _ o) eqn:E.
           ++ apply str_eqb_eq in E as <-. reflexivity.
           ++ rewrite orb_false_r in Hd. contradiction.
        -- rewrite orb_false_r in Hd. contradiction.
      * intros [_ ->]. rewrite Hd, Hw. discriminate.
  - assert (Heq : cors_allows env origin = validateWebSocketOrigin env origin).
    { eapply cors_ws_agree_when_configured; [exact Henv | discriminate]. }
    split; [rewrite Heq; auto|]. split; [contradiction|].
    intros [[H|H] _]; discriminate H.
  - pose proof (default_decisions env origin) as Hd.
    pose proof (ws_rejects_ajkcleaners env) as Hw.
    rewrite Henv in Hd, Hw. specialize (Hd (or_introl eq_refl)).
    specialize (Hw (or_introl eq_refl)). split.
    + intros H. rewrite Hd, H. reflexivity.
    + split.
      * intros Hne. split; [left; reflexivity|].
        destruct origin as [o|].
        -- destruct (str_eqb _ o) eqn:E.
           ++ apply str_eqb_eq in E as <-. reflexivity.
           ++ rewrite orb_false_r in Hd. contradiction.
        -- rewrite orb_false_r in Hd. contradiction.
      * intros [_ ->]. rewrite Hd, Hw. discriminate.
Qed.

(** The CORS callback is never called with [false]; an allowed request is
    not logged; a rejection passes the error "Not allowed by CORS" and
    logs one record, which carries the rejected origin. *)
Theorem cors_logs_exactly_rejections env origin :
  match corsConfig_origin env origin with
  | (logs, CallbackOk allow) => allow = true ∧ logs = []
  | (logs, CallbackError msg) =>
      msg = lit "Not allowed by CORS" ∧
      ∃ o, origin = Some o ∧ o ≠ [] ∧
           cors_allows env origin = false ∧
           logs = [ {| log_message := lit "CORS blocked origin";
                       log_meta := [ (lit "origin", VStr o);
                                     (lit "ip", VStr (lit "unknown")) ] |} ]
  end.
Proof.
  unfold cors_allows, corsConfig_origin.
  destruct origin as [[|c o]|]; cbn [truthy_string negb]; [auto | | auto].
  destruct (negb _ || _); cbn [snd]; [auto|].
  split; [reflexivity|]. exists (c :: o).
  split; [reflexivity|]. split; [discriminate|]. split; reflexivity.
Qed.

End OriginCompared.

(** * The sanitizer on any store *)
Section StoreFacts.
Import Sanitizer Facts.

Lemma sanitize_S_ref n (h : heap) a :
  sanitize (S n) h (VRef a) =
  match h !! a with
  | Some c =>
      h' ← for_in (sanitize n) a (List.map fst (cell_props c)) h;
      Some (h', VRef a)
  | None => Some (h, VRef a)
  end.
Proof. reflexivity. Qed.

Lemma sanitize_S_other n (h : heap) v :
  (∀ a, v ≠ VRef a) → sanitize (S n) h v = Some (h, sanitized v).
Proof. destruct v; intros H; try reflexivity. destruct (H a eq_refl). Qed.

Lemma for_in_mono (rec rec' : heap → val → option (heap * val)) a keys :
  (∀ h v r, rec h v = Some r → rec' h v = Some r) →
  ∀ h h', for_in rec a keys h = Some h' → for_in rec' a keys h = Some h'.
Proof.
  intros Hrec. induction keys as [|k keys IH]; intros h h'; simpl; [auto|].
  destruct (rec h (get_prop h a k)) as [[h1 v1]|] eqn:E; simpl;
    [|discriminate].
  rewrite (Hrec _ _ _ E). simpl. apply IH.
Qed.

Lemma sanitize_fuel_S n :
  ∀ (h : heap) v r, sanitize n h v = Some r → sanitize (S n) h v = Some r.
Proof.
  induction n as [|n IH]; intros h v r H; [discriminate H|].
  destruct v as [ | | b | f | s | a]; try exact H.
  rewrite sanitize_S_ref in *. destruct (h !! a) as [c|]; [|exact H].
  destruct (for_in (sanitize n) a _ h) as [h'|] eqn:E; [|discriminate H].
  rewrite (for_in_mono _ _ _ _ IH _ _ E). exact H.
Qed.

(** The bound on the depth of calls is no part of the result: a depth
    that is enough gives the result of every greater depth, and no depth
    gives another result. *)
Lemma sanitize_result_unique n (h : heap) v r :
  sanitize n h v = Some r →
  ∀ m, (n ≤ m → sanitize m h v = Some r) ∧
       (∀ r', sanitize m h v = Some r' → r' = r).
Proof.
  intros H.
  assert (Hup : ∀ k x y, sanitize k h v = Some x → k ≤ y →
                         sanitize y h v = Some x).
  { intros k x y Hk Hle. induction Hle as [|y _ IH]; [exact Hk|].
    apply sanitize_fuel_S; exact IH. }
  intros m. split; [apply Hup; exact H|].
  intros r' Hm. destruct (Nat.le_ge_cases n m) as [Hle|Hle].
  - rewrite (Hup _ _ _ H Hle) in Hm. congruence.
  - rewrite (Hup _ _ _ Hm Hle) in H. congruence.
Qed.

(** ** What the writes of the sanitizer keep *)

Lemma kept_or_cleaned_refl v : kept_or_cleaned v v.
Proof. left; reflexivity. Qed.

Lemma kept_or_cleaned_trans v1 v2 v3 :
  kept_or_cleaned v1 v2 → kept_or_cleaned v2 v3 → kept_or_cleaned v1 v3.
Proof.
  intros [->|(s & s' & -> & -> & H)] [->|(t & t' & E & -> & H')].
  - left; reflexivity.
  - right; eauto 6.
  - right; eauto 6.
  - right; eauto 6.
Qed.

(** Writing the sanitized form of what a property held before, over what
    it holds now, keeps or cleans it. *)
Lemma kept_or_cleaned_step w w1 :
  kept_or_cleaned w w1 → kept_or_cleaned w1 (sanitized w).
Proof.
  intros [->|(s & s' & -> & -> & H)].
  - destruct w as [ | | b | f | s | a]; try (left; reflexivity).
    right. exists s, (clean_string s).
    split; [reflexivity|]. split; [reflexivity|]. apply clean_string_no_angle.
  - right. exists s', (clean_string s).
    split; [reflexivity|]. split; [reflexivity|]. apply clean_string_no_angle.
Qed.

Lemma props_kept_refl (ps : list (jsstring * val)) :
  Forall2 (fun p p' => fst p' = fst p ∧ kept_or_cleaned (snd p) (snd p'))
    ps ps.
Proof.
  induction ps; constructor; auto using kept_or_cleaned_refl.
Qed.

Lemma props_kept_trans (ps1 ps2 ps3 : list (jsstring * val)) :
  Forall2 (fun p p' => fst p' = fst p ∧ kept_or_cleaned (snd p) (snd p'))
    ps1 ps2 →
  Forall2 (fun p p' => fst p' = fst p ∧ kept_or_cleaned (snd p) (snd p'))
    ps2 ps3 →
  Forall2 (fun p p' => fst p' = fst p ∧ kept_or_cleaned (snd p) (snd p'))
    ps1 ps3.
Proof.
  intros H12. revert ps3.
  induction H12 as [|p1 p2 l1 l2 [Hk Hv] _ IH]; intros ps3 H23;
    inversion H23 as [|? p3 ? l3 [Hk' Hv'] Hl]; subst; constructor.
  - split; [congruence | eapply kept_or_cleaned_trans; eauto].
  - apply IH; exact Hl.
Qed.

Lemma cell_kept_refl c : cell_kept c c.
Proof. split; [reflexivity | apply props_kept_refl]. Qed.

Lemma cell_kept_trans c1 c2 c3 :
  cell_kept c1 c2 → cell_kept c2 c3 → cell_kept c1 c3.
Proof.
  intros [Hk Hp] [Hk' Hp']. split; [congruence|].
  eapply props_kept_trans; eauto.
Qed.

Lemma store_kept_refl (h : heap) : store_kept h h.
Proof. induction h; constructor; auto using cell_kept_refl. Qed.

Lemma store_kept_trans (h1 h2 h3 : heap) :
  store_kept h1 h2 → store_kept h2 h3 → store_kept h1 h3.
Proof.
  intros H12. revert h3.
  induction H12 as [|c1 c2 l1 l2 Hc _ IH]; intros h3 H23;
    inversion H23 as [|? c3 ? l3 Hc' Hl]; subst; constructor.
  - eapply cell_kept_trans; eauto.
  - apply IH; exact Hl.
Qed.

Lemma props_kept_get ps ps' key v :
  Forall2 (fun p p' => fst p' = fst p ∧ kept_or_cleaned (snd p) (snd p'))
    ps ps' →
  assoc_get ps key = Some v →
  ∃ v', assoc_get ps' key = Some v' ∧ kept_or_cleaned v v'.
Proof.
  induction 1 as [|[k w] [k' w'] l l' [Hk Hv] _ IH]; simpl in *;
    [discriminate|]. subst k'.
  destruct (str_eqb k key); [intros [= <-]; eauto | exact IH].
Qed.

Lemma props_kept_get_inv ps ps' key v' :
  Forall2 (fun p p' => fst p' = fst p ∧ kept_or_cleaned (snd p) (snd p'))
    ps ps' →
  assoc_get ps' key = Some v' →
  ∃ v, assoc_get ps key = Some v ∧ kept_or_cleaned v v'.
Proof.
  induction 1 as [|[k w] [k' w'] l l' [Hk Hv] _ IH]; simpl in *;
    [discriminate|]. subst k'.
  destruct (str_eqb k key); [intros [= <-]; eauto | exact IH].
Qed.

Lemma props_kept_set ps ps1 key v v1 :
  Forall2 (fun p p' => fst p' = fst p ∧ kept_or_cleaned (snd p) (snd p'))
    ps ps1 →
  assoc_get ps key = Some v → kept_or_cleaned v v1 →
  Forall2 (fun p p' => fst p' = fst p ∧ kept_or_cleaned (snd p) (snd p'))
    ps (assoc_set ps1 key v1).
Proof.
  intros H Hget Hv1.
  induction H as [|[k w] [k' w'] l l' [Hk Hv] Hl IH]; simpl in *;
    [discriminate|]. subst k'.
  destruct (str_eqb k key).
  - injection Hget as <-. constructor; [split; auto | exact Hl].
  - constructor; [split; auto | apply IH; exact Hget].
Qed.

Lemma assoc_get_set_eq ps key w v :
  assoc_get ps key = Some w → assoc_get (assoc_set ps key v) key = Some v.
Proof.
  induction ps as [|[k x] ps IH]; simpl; [discriminate|].
  destruct (str_eqb k key) eqn:E; simpl; rewrite E; auto.
Qed.

Lemma assoc_get_key ps key v :
  assoc_get ps key = Some v → key ∈ List.map fst ps.
Proof.
  intros H. apply assoc_get_elem in H.
  apply list_elem_of_In, in_map_iff. exists (key, v).
  split; [reflexivity | apply list_elem_of_In; exact H].
Qed.

Lemma assoc_get_present ps key :
  key ∈ List.map fst ps → is_Some (assoc_get ps key).
Proof.
  induction ps as [|[k x] ps IH]; simpl; [intros H; inversion H|].
  destruct (str_eqb k key) eqn:E; [eauto|].
  intros H. apply elem_of_cons in H as [->|H]; [|auto].
  rewrite str_eqb_refl in E. discriminate E.
Qed.

Lemma store_kept_lookup (h h' : heap) a c :
  store_kept h h' → h !! a = Some c →
  ∃ c', h' !! a = Some c' ∧ cell_kept c c'.
Proof. intros H Ha. eapply Forall2_lookup_l; eauto. Qed.

Lemma store_kept_lookup_inv (h h' : heap) a c' :
  store_kept h h' → h' !! a = Some c' →
  ∃ c, h !! a = Some c ∧ cell_kept c c'.
Proof. intros H Ha. eapply Forall2_lookup_r; eauto. Qed.

Lemma store_kept_insert (h h1 : heap) a c c2 :
  store_kept h h1 → h !! a = Some c → cell_kept c c2 →
  store_kept h (<[a := c2]> h1).
Proof.
  intros H Ha Hc. rewrite <- (list_insert_id h a c Ha).
  apply Forall2_insert; assumption.
Qed.

(** The assignment [obj[key] = sanitize(obj[key])] of the loop, after the
    recursive call has brought the store from [hi] to [h1]. *)
Lemma set_prop_kept (hi h1 : heap) a c key w :
  store_kept hi h1 → hi !! a = Some c →
  assoc_get (cell_props c) key = Some w →
  let h2 := set_prop h1 a key (sanitized w) in
  store_kept hi h2 ∧ store_kept h1 h2 ∧
  get_prop h2 a key = sanitized w ∧
  ∃ c2, h2 !! a = Some c2 ∧ cell_kept c c2.
Proof.
  intros H Ha Hget h2.
  destruct (store_kept_lookup _ _ _ _ H Ha) as (c1 & Ha1 & [Hk1 Hp1]).
  destruct (props_kept_get _ _ _ _ Hp1 Hget) as (w1 & Hget1 & Hw1).
  assert (E : h2 = <[a := Cell (cell_kind c1)
                          (assoc_set (cell_props c1) key (sanitized w))]> h1).
  { unfold h2, set_prop, addr in *. rewrite Ha1. reflexivity. }
  assert (Hc2 : cell_kept c
            (Cell (cell_kind c1) (assoc_set (cell_props c1) key (sanitized w)))).
  { split; [exact Hk1|]. cbn [cell_props].
    eapply props_kept_set; eauto.
    eapply kept_or_cleaned_trans; [exact Hw1|].
    apply kept_or_cleaned_step; exact Hw1. }
  assert (Ha2 : h2 !! a = Some
            (Cell (cell_kind c1) (assoc_set (cell_props c1) key (sanitized w)))).
  { rewrite E. apply list_lookup_insert_eq. eapply lookup_lt_Some; eauto. }
  split; [|split; [|split]].
  - rewrite E. eapply store_kept_insert; eauto.
  - rewrite E. eapply store_kept_insert; [apply store_kept_refl | exact Ha1 |].
    split; [reflexivity|]. cbn [cell_props].
    eapply props_kept_set; [apply props_kept_refl | exact Hget1 |].
    apply kept_or_cleaned_step; exact Hw1.
  - unfold get_prop. rewrite Ha2. cbn [cell_props].
    erewrite assoc_get_set_eq; [reflexivity | exact Hget1].
  - eauto.
Qed.

Section Kept.

Variable n : nat.
Hypothesis calls_keep :
  ∀ (h : heap) v h' v', sanitize n h v = Some (h', v') →
    store_kept h h' ∧ v' = sanitized v.

Lemma for_in_store_kept a keys :
  ∀ (hi : heap) c h',
    hi !! a = Some c →
    (∀ k, k ∈ keys → k ∈ List.map fst (cell_props c)) →
    for_in (sanitize n) a keys hi = Some h' →
    store_kept hi h'.
Proof.
  induction keys as [|key keys IH]; intros hi c h' Ha Hkeys Hfor;
    simpl in Hfor.
  - injection Hfor as <-. apply store_kept_refl.
  - destruct (assoc_get_present (cell_props c) key) as [w Hget];
      [apply Hkeys; left|].
    assert (Hgp : get_prop hi a key = w).
    { unfold get_prop. rewrite Ha, Hget. reflexivity. }
    rewrite Hgp in Hfor.
    destruct (sanitize n hi w) as [[h1 v1]|] eqn:Hs; [|discriminate Hfor].
    simpl in Hfor. destruct (calls_keep _ _ _ _ Hs) as [H1 ->].
    destruct (set_prop_kept hi h1 a c key w H1 Ha Hget)
      as (H2 & _ & _ & c2 & Ha2 & Hc2).
    eapply store_kept_trans; [exact H2|].
    eapply IH; [exact Ha2 | | exact Hfor].
    intros k Hk. destruct Hc2 as [_ Hp2].
    destruct (assoc_get_present (cell_props c) k) as [x Hx];
      [apply Hkeys; right; exact Hk|].
    destruct (props_kept_get _ _ _ _ Hp2 Hx) as (x' & Hx' & _).
    eapply assoc_get_key; exact Hx'.
Qed.

End Kept.

(** Whenever [sanitize] returns: the value returned is the argument, or
    its cleaned form for a string; the store has the same cells; a cell
    has its kind and its property names; and a property holds what it
    held, or a string without '<' and '>' where it held a string. *)
Lemma sanitize_store_kept n :
  ∀ (h : heap) v h' v', sanitize n h v = Some (h', v') →
    store_kept h h' ∧ v' = sanitized v.
Proof.
  induction n as [|n IH]; intros h v h' v' H; [discriminate H|].
  destruct v as [ | | b | f | s | a];
    try (injection H as <- <-; split; [apply store_kept_refl | reflexivity]).
  rewrite sanitize_S_ref in H. destruct (h !! a) as [c|] eqn:Ha.
  - destruct (for_in (sanitize n) a _ h) as [h1|] eqn:Hfor; [|discriminate H].
    injection H as <- <-. split; [|reflexivity].
    eapply for_in_store_kept; [exact IH | exact Ha | | exact Hfor]. auto.
  - injection H as <- <-. split; [apply store_kept_refl | reflexivity].
Qed.

(** Whenever [sanitize] returns, on any store, shared or not: it has
    allocated and removed nothing; every cell has its kind, its property
    names and their order; every property holds what it held, or a string
    without '<' and '>' where it held a string. So no key is sanitized,
    and no number, boolean, null or reference is changed. *)
Theorem sanitize_keeps_store_shape fuel (h : heap) v h' v' :
  sanitize fuel h v = Some (h', v') →
  v' = sanitized v ∧ length h' = length h ∧
  ∀ a c, h !! a = Some c →
    ∃ c', h' !! a = Some c' ∧ cell_kind c' = cell_kind c ∧
      List.map fst (cell_props c') = List.map fst (cell_props c) ∧
      ∀ i key w, cell_props c !! i = Some (key, w) →
        ∃ w', cell_props c' !! i = Some (key, w') ∧
          (w' = w ∨ ∃ s s', w = VStr s ∧ w' = VStr s' ∧ no_angle s').
Proof.
  intros H. destruct (sanitize_store_kept _ _ _ _ _ H) as [Hk ->].
  split; [reflexivity|]. split.
  { symmetry. eapply Forall2_length; exact Hk. }
  intros a c Ha.
  destruct (store_kept_lookup _ _ _ _ Hk Ha) as (c' & Ha' & Hkind & Hp).
  exists c'. split; [exact Ha'|]. split; [exact Hkind|]. split.
  - clear -Hp. induction Hp as [|p p' l l' [Hfst _] _ IH]; simpl; congruence.
  - intros i key w Hi.
    destruct (Forall2_lookup_l _ _ _ _ _ Hp Hi) as ([key' w'] & Hi' & Hfst & Hv).
    simpl in Hfst, Hv. subst key'. exists w'. split; [exact Hi' | exact Hv].
Qed.

Lemma sanitize_keeps_store_shape_witness :
  ∃ h' v', sanitize 3 Examples.shared_payload (VRef 0) = Some (h', v') ∧
    v' = sanitized (VRef 0) ∧ length h' = length Examples.shared_payload.
Proof.
  eexists _, _. split; [reflexivity|].
  destruct (sanitize_keeps_store_shape 3 Examples.shared_payload (VRef 0)
              _ _ eq_refl) as (Hv & Hlen & _).
  split; [exact Hv | exact Hlen].
Defined.

(** ** No '<' or '>' is left where the sanitizer has been *)

Lemma reach_kept (h h' : heap) w s :
  store_kept h h' → reach h' w s → reach h w s ∨ no_angle s.
Proof.
  intros Hk Hr. induction Hr as [s | a c' key v s Ha' Hget' _ IH].
  - left; constructor.
  - destruct IH as [IH | IH]; [|right; exact IH].
    destruct (store_kept_lookup_inv _ _ _ _ Hk Ha') as (c & Ha & _ & Hp).
    destruct (props_kept_get_inv _ _ _ _ Hp Hget')
      as (v0 & Hget & [-> | (s0 & s1 & -> & -> & Hclean)]).
    + left. eapply reach_prop; eauto.
    + right. inversion IH; subst. exact Hclean.
Qed.

Lemma angle_free_kept (h h' : heap) w :
  store_kept h h' → angle_free h w → angle_free h' w.
Proof.
  intros Hk Hw s Hr. destruct (reach_kept _ _ _ _ Hk Hr); auto.
Qed.

Lemma angle_free_slot_kept (h h' : heap) a k :
  store_kept h h' →
  angle_free h (get_prop h a k) → angle_free h' (get_prop h' a k).
Proof.
  intros Hk. unfold get_prop. destruct (h' !! a) as [c'|] eqn:Ha'.
  - destruct (store_kept_lookup_inv _ _ _ _ Hk Ha') as (c & Ha & _ & Hp).
    unfold addr in *. rewrite Ha.
    destruct (assoc_get (cell_props c') k) as [v'|] eqn:Hget'.
    + destruct (props_kept_get_inv _ _ _ _ Hp Hget')
        as (v & Hget & [-> | (s0 & s1 & -> & -> & Hclean)]); rewrite Hget.
      * apply angle_free_kept; exact Hk.
      * intros _ s Hr. inversion Hr; subst. exact Hclean.
    + intros _ s Hr. inversion Hr.
  - intros _ s Hr. inversion Hr.
Qed.

Section Clean.

Variable n : nat.
Hypothesis calls_clean :
  ∀ (h : heap) v h' v', sanitize n h v = Some (h', v') → angle_free h' v'.

Lemma for_in_angle_free a keys :
  ∀ (hi : heap) c h' done,
    hi !! a = Some c →
    (∀ k, k ∈ keys → k ∈ List.map fst (cell_props c)) →
    (∀ k, k ∈ done → angle_free hi (get_prop hi a k)) →
    for_in (sanitize n) a keys hi = Some h' →
    ∀ k, k ∈ done ++ keys → angle_free h' (get_prop h' a k).
Proof.
  induction keys as [|key keys IH]; intros hi c h' done Ha Hkeys Hdone Hfor;
    simpl in Hfor.
  - injection Hfor as <-. rewrite app_nil_r. exact Hdone.
  - destruct (assoc_get_present (cell_props c) key) as [w Hget];
      [apply Hkeys; left|].
    assert (Hgp : get_prop hi a key = w).
    { unfold get_prop. rewrite Ha, Hget. reflexivity. }
    rewrite Hgp in Hfor.
    destruct (sanitize n hi w) as [[h1 v1]|] eqn:Hs; [|discriminate Hfor].
    simpl in Hfor.
    pose proof (calls_clean _ _ _ _ Hs) as Hclean.
    destruct (sanitize_store_kept _ _ _ _ _ Hs) as [H1 ->].
    destruct (set_prop_kept hi h1 a c key w H1 Ha Hget)
      as (H2 & H12 & Hgp2 & c2 & Ha2 & Hc2).
    intros k Hk. replace (done ++ key :: keys) with ((done ++ [key]) ++ keys)
      in Hk by (rewrite <- app_assoc; reflexivity).
    revert k Hk. eapply IH; [exact Ha2 | | | exact Hfor].
    + intros k Hk. destruct Hc2 as [_ Hp2].
      destruct (assoc_get_present (cell_props c) k) as [x Hx];
        [apply Hkeys; right; exact Hk|].
      destruct (props_kept_get _ _ _ _ Hp2 Hx) as (x' & Hx' & _).
      eapply assoc_get_key; exact Hx'.
    + intros k Hk. apply elem_of_app in Hk as [Hk | Hk].
      * apply (angle_free_slot_kept hi); [exact H2 | apply Hdone; exact Hk].
      * apply list_elem_of_singleton in Hk as ->. rewrite Hgp2.
        apply (angle_free_kept h1); assumption.
Qed.

End Clean.

Lemma sanitize_angle_free n :
  ∀ (h : heap) v h' v', sanitize n h v = Some (h', v') → angle_free h' v'.
Proof.
  induction n as [|n IH]; intros h v h' v' H; [discriminate H|].
  pose proof (sanitize_store_kept _ _ _ _ _ H) as [Hk _].
  destruct v as [ | | b | f | s | a];
    try (injection H as <- <-; intros s' Hr; inversion Hr; fail).
  - injection H as <- <-. intros s' Hr. inversion Hr; subst.
    apply clean_string_no_angle.
  - rewrite sanitize_S_ref in H. destruct (h !! a) as [c|] eqn:Ha.
    + destruct (for_in (sanitize n) a _ h) as [h1|] eqn:Hfor;
        [|discriminate H].
      injection H as <- <-.
      pose proof (for_in_angle_free n IH a _ h c h1 [] Ha
                    (fun k Hin => Hin) ltac:(intros k0 Hk0; inversion Hk0) Hfor)
        as Hslots.
      intros s Hr. inversion Hr as [|a' c' key v s' Ha' Hget' Hr']; subst.
      destruct (store_kept_lookup_inv _ _ _ _ Hk Ha') as (c0 & Ha0 & _ & Hp).
      unfold addr in *. rewrite Ha in Ha0. injection Ha0 as <-.
      destruct (props_kept_get_inv _ _ _ _ Hp Hget') as (v0 & Hget & _).
      apply (Hslots key); [simpl; eapply assoc_get_key; exact Hget|].
      unfold get_prop, addr. rewrite Ha', Hget'. exact Hr'.
    + injection H as <- <-. intros s Hr. inversion Hr; subst.
      unfold addr in *. congruence.
Qed.

(** Where no reference cycle can be reached from the value, shared
    objects allowed, [sanitize] returns, and whatever it returns at any
    depth, no string that can be read from the result holds '<' or
    '>'. *)
Theorem sanitize_leaves_no_angle (h : heap) rank v :
  acyclic h rank →
  (∀ a, v = VRef a → is_Some (rank a)) →
  (∃ fuel, is_Some (sanitize fuel h v)) ∧
  ∀ fuel h' v', sanitize fuel h v = Some (h', v') →
    ∀ s c, reach h' v' s → c ∈ s → is_angle c = false.
Proof.
  intros Hac Hv. split.
  - exists (match v with VRef a => default 0 (rank a) + 2 | _ => 1 end).
    destruct (sanitize_returns_ranked rank
                (match v with VRef a => default 0 (rank a) + 2 | _ => 1 end)
                h v Hac) as (h' & v' & Hs & _).
    + destruct v; lia.
    + intros a ->. destruct (Hv a eq_refl) as [r Hr]. rewrite Hr.
      exists r. split; [reflexivity | simpl; lia].
    + rewrite Hs. eauto.
  - intros fuel h' v' Hs s c Hr Hc.
    exact (sanitize_angle_free _ _ _ _ _ Hs s Hr c Hc).
Qed.

Lemma sanitize_leaves_no_angle_witness :
  (∃ fuel, is_Some (sanitize fuel Examples.shared_payload (VRef 0))) ∧
  ∀ fuel h' v',
    sanitize fuel Examples.shared_payload (VRef 0) = Some (h', v') →
    ∀ s c, reach h' v' s → c ∈ s → is_angle c = false.
Proof.
  apply (sanitize_leaves_no_angle _ Examples.shared_rank).
  - intros a c r key b Ha Hr Hin.
    destruct a as [|[|a]]; simpl in *; try discriminate.
    + injection Ha as <-. injection Hr as <-. simpl in Hin.
      exists 0. split; [|lia].
      apply elem_of_cons in Hin as [[= _ ->] | Hin]; [reflexivity|].
      apply elem_of_cons in Hin as [[= _ ->] | Hin]; [reflexivity|].
      inversion Hin.
    + injection Ha as <-. simpl in Hin.
      apply elem_of_cons in Hin as [[=] | Hin]. inversion Hin.
  - intros a [= <-]. simpl. eauto.
Defined.

(** ** The middleware *)

Lemma sanitize_field_kept fuel (h : heap) v h' v' :
  sanitize_field fuel h v = Some (h', v') →
  store_kept h h' ∧ v' = sanitized v ∧ angle_free h' v'.
Proof.
  unfold sanitize_field. destruct (truthy v) eqn:T; intros H.
  - destruct (sanitize_store_kept _ _ _ _ _ H) as [Hk Hv].
    split; [exact Hk|]. split; [exact Hv|].
    eapply sanitize_angle_free; exact H.
  - injection H as <- <-. split; [apply store_kept_refl|].
    destruct v as [ | | b | f | [|c s] | a]; try discriminate T;
      (split; [reflexivity|]); intros s' Hr; inversion Hr; subst.
    intros c Hc; inversion Hc.
Qed.

(** Whenever [sanitizeInput] reaches [next()], on any store: ip, path,
    user agent and session of the request are as they were; body, query
    and params are the values they were, cleaned where one is a string;
    the store has its cells and property names; and no string that can be
    read from body, query or params holds '<' or '>', also where the
    three share objects. *)
Theorem sanitizeInput_leaves_no_angle fuel (h : heap) req h' req' :
  sanitizeInput fuel h req = Some (h', req') →
  (ip req' = ip req ∧ path req' = path req ∧
   user_agent req' = user_agent req ∧ session req' = session req) ∧
  (body req' = sanitized (body req) ∧ query req' = sanitized (query req) ∧
   params req' = sanitized (params req)) ∧
  store_kept h h' ∧
  angle_free h' (body req') ∧ angle_free h' (query req') ∧
  angle_free h' (params req').
Proof.
  unfold sanitizeInput. intros H.
  destruct (sanitize_field fuel h (body req)) as [[h1 b]|] eqn:E1;
    [|discriminate H]. cbn [mbind option_bind] in H.
  destruct (sanitize_field fuel h1 (query req)) as [[h2 q]|] eqn:E2;
    [|discriminate H]. cbn [mbind option_bind] in H.
  destruct (sanitize_field fuel h2 (params req)) as [[h3 p]|] eqn:E3;
    [|discriminate H]. cbn [mbind option_bind] in H.
  injection H as <- <-. cbn [ip path user_agent session body query params].
  destruct (sanitize_field_kept _ _ _ _ _ E1) as (K1 & -> & C1).
  destruct (sanitize_field_kept _ _ _ _ _ E2) as (K2 & -> & C2).
  destruct (sanitize_field_kept _ _ _ _ _ E3) as (K3 & -> & C3).
  split; [auto|]. split; [auto|]. split.
  { eapply store_kept_trans; [exact K1|].
    eapply store_kept_trans; [exact K2 | exact K3]. }
  split; [|split; [|exact C3]].
  - eapply angle_free_kept; [exact K3|].
    eapply angle_free_kept; [exact K2 | exact C1].
  - eapply angle_free_kept; [exact K3 | exact C2].
Qed.

Lemma sanitizeInput_leaves_no_angle_witness :
  ∃ h' req',
    sanitizeInput 2 Examples.name_payload name_request = Some (h', req') ∧
    body req' = sanitized (body name_request) ∧
    angle_free h' (body req').
Proof.
  eexists _, _. split; [reflexivity|].
  destruct (sanitizeInput_leaves_no_angle 2 Examples.name_payload name_request
              _ _ eq_refl) as (_ & (Hb & _) & _ & Hc & _).
  split; [exact Hb | exact Hc].
Defined.

Lemma sanitizeInput_rep_witness :
  ∃ h' req',
    sanitizeInput 2 Examples.name_payload name_request = Some (h', req') ∧
    rep h' (body req') (spec_clean Examples.name_tree) ({[0]} ∪ (∅ ∪ ∅)) ∧
    rep h' (query req') (spec_clean TUndefined) ∅ ∧
    rep h' (params req') (spec_clean TUndefined) ∅.
Proof.
  apply (sanitizeInput_rep Examples.name_payload name_request
           Examples.name_tree TUndefined TUndefined).
  - eapply rep_node; [reflexivity | | | set_solver].
    + repeat constructor. set_solver.
    + repeat constructor. set_solver.
  - constructor.
  - constructor.
  - set_solver.
  - set_solver.
  - set_solver.
  - simpl; lia.
  - simpl; lia.
  - simpl; lia.
Defined.

End StoreFacts.

(** * The configured login limit *)
Section LoginLimitFacts.
Import RateLimit Facts.
Local Open Scope Z_scope.

Lemma digit_value_stops (c : N) (r : list N) :
  ends_numeral (c :: r) = true → digit_value 10 c = None.
Proof.
  unfold ends_numeral, digit_value, code_unit in *. intros H.
  apply andb_true_iff in H as [Hd _]. apply negb_true_iff in Hd.
  rewrite Hd.
  destruct ((0x61 <=? c) && (c <=? 0x7A))%N eqn:E1.
  { apply andb_true_iff in E1 as [E1 _]. apply N.leb_le in E1.
    destruct (Z.ltb_spec (Z.of_N c - 0x61 + 10) 10); [exfalso; lia | reflexivity]. }
  destruct ((0x41 <=? c) && (c <=? 0x5A))%N eqn:E2; [|reflexivity].
  apply andb_true_iff in E2 as [E2 _]. apply N.leb_le in E2.
  destruct (Z.ltb_spec (Z.of_N c - 0x41 + 10) 10); [exfalso; lia | reflexivity].
Qed.

Lemma parse_digits_stops rest acc :
  ends_numeral rest = true → parse_digits 10 rest acc = acc.
Proof.
  destruct rest as [|c r]; [reflexivity|]. intros H. simpl.
  rewrite (digit_value_stops c r H). reflexivity.
Qed.

(** [parse_digits] reads a decimal numeral as [Nat.of_uint] does. *)
Lemma parse_digits_uint d :
  ∀ rest acc, ends_numeral rest = true →
    parse_digits 10 (uint_units d ++ rest) (Some (Z.of_nat acc)) =
    Some (Z.of_nat (Nat.of_uint_acc d acc)).
Proof.
  induction d as [|d IH|d IH|d IH|d IH|d IH|d IH|d IH|d IH|d IH|d IH];
    intros rest acc Hrest;
    [apply parse_digits_stops; exact Hrest|..];
    cbn [uint_units app parse_digits Nat.of_uint_acc];
    match goal with
    | |- context [digit_value 10 ?c] =>
        let r := eval vm_compute in (digit_value 10 c) in
        change (digit_value 10 c) with r
    end;
    cbn [default]; rewrite <- (IH rest _ Hrest); do 2 f_equal;
    rewrite Nat.tail_mul_spec; unfold id; lia.
Qed.

Lemma hex_prefix_match (s : jsstring) :
  match s with
  | z :: x :: r =>
      if ((z =? 0x30) && ((x =? 0x78) || (x =? 0x58)))%N then (16, r)
      else (10, s)
  | _ => (10, s)
  end = if hex_prefix s then (16, drop 2 s) else (10, s).
Proof.
  destruct s as [|z [|x r]]; simpl; [reflexivity | | reflexivity].
  rewrite andb_false_r. reflexivity.
Qed.

Lemma hex_prefix_numeral d rest :
  ends_numeral rest = true → hex_prefix (uint_units d ++ rest) = false.
Proof.
  intros Hrest. destruct d as [|d|d|d|d|d|d|d|d|d|d]; try reflexivity.
  - destruct rest as [|z [|x r]]; try reflexivity.
    + simpl. apply andb_false_r.
    + simpl in *. apply andb_true_iff in Hrest as [Hd _].
      apply negb_true_iff in Hd.
      destruct (N.eqb_spec z 0x30) as [->|]; [discriminate Hd | reflexivity].
  - destruct d as [|d|d|d|d|d|d|d|d|d|d]; try reflexivity.
    destruct rest as [|x r]; [reflexivity|]. simpl in *.
    apply andb_true_iff in Hrest as [_ Hx]. apply negb_true_iff in Hx.
    exact Hx.
Qed.

Lemma to_uint_not_nil n : Nat.to_uint n ≠ Decimal.Nil.
Proof.
  rewrite <- (Unsigned.of_to n) at 1. rewrite Unsigned.to_of.
  unfold Decimal.unorm. destruct (Decimal.nzhead (Nat.to_uint n)); discriminate.
Qed.

(** The digits of a numeral, then text that ends it. *)
Lemma parse_numeral d rest :
  d ≠ Decimal.Nil → ends_numeral rest = true →
  parse_digits 10 (uint_units d ++ rest) None =
  Some (Z.of_nat (Nat.of_uint d)).
Proof.
  intros Hd Hrest.
  transitivity (parse_digits 10 (uint_units d ++ rest) (Some (Z.of_nat 0))).
  - destruct d; [congruence|..]; reflexivity.
  - apply parse_digits_uint; exact Hrest.
Qed.

Lemma trimStart_numeral d rest :
  d ≠ Decimal.Nil → trimStart (uint_units d ++ rest) = uint_units d ++ rest.
Proof.
  intros Hd. apply trimStart_fixed. destruct d; [congruence|..]; reflexivity.
Qed.

Lemma sign_of_numeral d rest :
  d ≠ Decimal.Nil →
  match uint_units d ++ rest with
  | c :: r => if (c =? 0x2D)%N then (-1, r)
              else if (c =? 0x2B)%N then (1, r) else (1, uint_units d ++ rest)
  | [] => (1, uint_units d ++ rest)
  end = (1, uint_units d ++ rest).
Proof. intros Hd. destruct d; [congruence|..]; reflexivity. Qed.

(** [parseInt] reads a decimal numeral, with white space before it, a
    minus sign or none, and any text after it that does not go on with a
    digit or an x. *)
Lemma parseInt_numeral ws n rest :
  Forall (fun c => is_white_space c = true) ws →
  ends_numeral rest = true →
  parseInt (ws ++ decimal n ++ rest) = Some (Z.of_nat n) ∧
  parseInt (ws ++ 0x2D%N :: decimal n ++ rest) = Some (- Z.of_nat n).
Proof.
  intros Hws Hrest. unfold decimal.
  pose proof (to_uint_not_nil n) as Hd.
  pose proof (Unsigned.of_to n) as Hn.
  split; unfold parseInt; rewrite trimStart_white by exact Hws.
  - rewrite trimStart_numeral, sign_of_numeral by exact Hd.
    rewrite hex_prefix_match, hex_prefix_numeral by exact Hrest.
    rewrite parse_numeral by assumption.
    rewrite Hn. cbn [option_map]. f_equal; lia.
  - rewrite (trimStart_fixed (0x2D%N :: _)) by reflexivity.
    change (if (0x2D =? 0x2D)%N then ?a else ?b) with a. cbv beta iota zeta.
    rewrite hex_prefix_match, hex_prefix_numeral by exact Hrest.
    rewrite parse_numeral by assumption.
    rewrite Hn. cbn [option_map]. f_equal; lia.
Qed.

(** A decimal [MAX_LOGIN_ATTEMPTS] of at most 2^53, where the double that
    the source computes is the integer itself, also with white space
    before it and other text after it, is the login limit, except that 0
    gives 5; with a minus sign before the numeral the limit is
    negative. *)
Theorem login_limit_from_numeral env ws n rest :
  (Z.of_nat n ≤ 2 ^ 53)%Z →
  Forall (fun c => is_white_space c = true) ws →
  ends_numeral rest = true →
  (MAX_LOGIN_ATTEMPTS env = Some (ws ++ decimal n ++ rest) →
   max (login env) = if (n =? 0)%nat then 5 else Z.of_nat n) ∧
  (MAX_LOGIN_ATTEMPTS env = Some (ws ++ 0x2D%N :: decimal n ++ rest) →
   max (login env) = if (n =? 0)%nat then 5 else - Z.of_nat n).
Proof.
  intros _ Hws Hrest.
  destruct (parseInt_numeral ws n rest Hws Hrest) as [Hpos Hneg].
  split; intros Henv; unfold login, rateLimit; cbn [max]; rewrite Henv;
    cbn [env_to_string]; [rewrite Hpos | rewrite Hneg]; unfold or_default;
    destruct n as [|n]; reflexivity.
Qed.

Lemma login_limit_from_numeral_witness :
  max (login {| NODE_ENV := None; ALLOWED_ORIGINS := None;
                MAX_LOGIN_ATTEMPTS := Some (lit " 10 attempts") |}) = 10 ∧
  max (login {| NODE_ENV := None; ALLOWED_ORIGINS := None;
                MAX_LOGIN_ATTEMPTS := Some (lit "-3") |}) = -3.
Proof.
  split.
  - apply (proj1 (login_limit_from_numeral _ (lit " ") 10 (lit " attempts")
                    ltac:(vm_compute; discriminate)
                    ltac:(repeat constructor) eq_refl)).
    reflexivity.
  - apply (proj2 (login_limit_from_numeral _ [] 3 []
                    ltac:(vm_compute; discriminate)
                    ltac:(constructor) eq_refl)).
    reflexivity.
Defined.

(** The api and login policies skip no request without an authenticated
    session: api skips only, and login exactly, when the request has a
    session whose [authenticated] is truthy, so neither skips a request
    that has no session; the form policy skips no request at all. *)
Theorem skip_needs_authenticated_session env req :
  (skips api req = true →
   ∃ s, session req = Some s ∧ truthy (authenticated s) = true) ∧
  (skips (login env) req = true ↔
   ∃ s, session req = Some s ∧ truthy (authenticated s) = true) ∧
  (session req = None →
   skips api req = false ∧ skips (login env) req = false) ∧
  skips form req = false.
Proof.
  split; [|split; [|split]].
  - intros H. apply api_skips in H as [_ H].
    apply session_authenticated_truthy; exact H.
  - apply session_authenticated_truthy.
  - intros Hnone. split.
    + destruct (skips api req) eqn:E; [|reflexivity].
      apply api_skips in E as [_ E].
      apply session_authenticated_truthy in E as (s & Hs & _). congruence.
    + destruct (skips (login env) req) eqn:E; [|reflexivity].
      apply session_authenticated_truthy in E as (s & Hs & _). congruence.
  - reflexivity.
Qed.

Lemma skip_needs_authenticated_session_witness :
  ∃ s, session {| ip := VUndefined; path := lit "/api/admin/users";
                  user_agent := VUndefined;
                  session := Some {| authenticated := VBool true |};
                  body := VUndefined; query := VUndefined;
                  params := VUndefined |} = Some s ∧
       truthy (authenticated s) = true.
Proof.
  apply (proj1 (skip_needs_authenticated_session production_env _)).
  reflexivity.
Defined.

End LoginLimitFacts.

(** * Session configuration *)
Section SessionFacts.
Import Session.

Lemma isProduction_exact env :
  isProduction env = true ↔ NODE_ENV env = Some (lit "production").
Proof.
  unfold isProduction. destruct (NODE_ENV env) as [s|].
  - rewrite str_eqb_eq. split; [intros ->; reflexivity | intros [= ->]; reflexivity].
  - split; discriminate.
Qed.

(** The session cookie is Secure exactly when [NODE_ENV] is the string
    production, nothing else; it is SameSite=None exactly when it is
    Secure and SameSite=Lax otherwise; it names a domain exactly when it
    is Secure; it is always HttpOnly and lives 24 hours. *)
Theorem session_cookie_coherent env session_secret :
  let c := cookie (sessionConfig env session_secret) in
  (secure c = true ↔ NODE_ENV env = Some (lit "production")) ∧
  (sameSite c = lit "none" ↔ secure c = true) ∧
  (sameSite c = lit "lax" ↔ secure c = false) ∧
  (domain c = Some (lit ".onrender.com") ↔ secure c = true) ∧
  (domain c = None ↔ secure c = false) ∧
  httpOnly c = true ∧ maxAge c = 86400000%Z.
Proof.
  cbn zeta. unfold sessionConfig; cbn [cookie secure sameSite domain httpOnly
    maxAge].
  split; [apply isProduction_exact|].
  destruct (isProduction env); repeat split; try discriminate; reflexivity.
Qed.

(** The session secret is never the empty string: a non-empty
    [SESSION_SECRET] is the secret, and when the variable is unset or
    empty the secret is the fallback literal, in production too. *)
Theorem session_secret_never_empty env session_secret :
  secret (sessionConfig env session_secret) ≠ [] ∧
  secret (sessionConfig env session_secret) =
    match session_secret with
    | Some (c :: s) => c :: s
    | _ => fallback_secret
    end ∧
  secret (sessionConfig production_env None) = fallback_secret.
Proof.
  unfold sessionConfig; cbn [secret].
  destruct session_secret as [[|c s]|]; repeat split; discriminate.
Qed.

End SessionFacts.
